(** * Gunrock: the SSSP functor and the connected-components entry point

    A shallow embedding of
      - [gunrock/app/sssp/sssp_functor.cuh] ([SSSPFunctor], [PQFunctor]) and
      - the connected-components driver ([run_cc], [dispatch_cc],
        [gunrock_cc_func]),
    followed by the properties of the design document that concern them.

    Conventions.  A device or host array is a [list Z]; an access outside the
    array is undefined behaviour in the source and [None] here.  An
    [unsigned int] is a [Z] in [0, 2^32) with the wrap-around written out; a
    [float] is an IEEE 754 binary32 number ([spec_float], precision 24,
    [emax] 128).  Functions that print or allocate thread the host state
    through a small state monad. *)

From Stdlib Require Import ZArith Lia SpecFloat.
From stdpp Require Import base tactics option list gmap strings sorting.

Local Open Scope Z_scope.

(** ** Machine integers and arrays *)

Definition UINT_MAX : Z := 4294967295.

(** The value an [unsigned int] holds after an arithmetic result [z]. *)
Definition u32 (z : Z) : Z := z mod 2 ^ 32.

Definition is_u32 (z : Z) : Prop := 0 ≤ z ≤ UINT_MAX.

(** [util::io::ModifiedLoad<...>::Ld(val, a + i)]: the load [val = a[i]]. *)
Definition Ld (a : list Z) (i : Z) : option Z :=
  if decide (0 ≤ i) then a !! Z.to_nat i else None.

(** [util::io::ModifiedStore<...>::St(val, a + i)]: the store [a[i] = val]. *)
Definition St (val : Z) (a : list Z) (i : Z) : option (list Z) :=
  if decide (0 ≤ i < Z.of_nat (length a))
  then Some (<[Z.to_nat i := val]> a) else None.

(** CUDA's [atomicMin(&a[i], val)]: stores [min(a[i], val)] and returns the
    value [a[i]] held before, in one indivisible step. *)
Definition atomicMin (a : list Z) (i : Z) (val : Z) : option (Z * list Z) :=
  old ← Ld a i;
  Some (old, <[Z.to_nat i := Z.min old val]> a).

(** ** Single-precision conversions

    The usual arithmetic conversions of C++: an [unsigned int] operand that
    meets a [float] operand is converted to [float] (round to nearest, ties to
    even); a [float] returned as [unsigned int] is truncated toward zero, and
    the conversion is undefined when the truncated value does not fit. *)

Definition prec32 : Z := 24.
Definition emax32 : Z := 128.

Definition float_of_uint (n : Z) : spec_float :=
  binary_normalize prec32 emax32 n 0 false.

Definition float_trunc (f : spec_float) : option Z :=
  match f with
  | S754_zero _ => Some 0
  | S754_finite s m e =>
      Some (cond_Zopp s (if decide (0 ≤ e) then Z.shiftl (Zpos m) e
                         else Z.shiftr (Zpos m) (- e)))
  | S754_infinity _ | S754_nan => None
  end.

Definition uint_of_float (f : spec_float) : option Z :=
  t ← float_trunc f;
  if decide (0 ≤ t ≤ UINT_MAX) then Some t else None.

(** [delta == 0]: the literal is converted to [0.0f]; true for both zeros,
    false for a NaN. *)
Definition float_is_zero (f : spec_float) : bool := SFeqb f (S754_zero false).

Definition float_div : spec_float → spec_float → spec_float :=
  SFdiv prec32 emax32.

(** ** The SSSP functor *)

Module SSSP.

(** The part of [ProblemData::DataSlice] the functors touch.  Its declaration
    is in [sssp_problem.cuh]: [d_labels] and [d_weights] are arrays of
    [unsigned int], [d_preds] an array of [VertexId], [d_delta] points to one
    [float]. *)
Record DataSlice : Type := mkDataSlice {
  d_labels : list Z;
  d_weights : list Z;
  d_preds : list Z;
  d_delta : spec_float
}.

Definition set_labels (ls : list Z) (p : DataSlice) : DataSlice :=
  mkDataSlice ls (d_weights p) (d_preds p) (d_delta p).

Definition set_preds (ps : list Z) (p : DataSlice) : DataSlice :=
  mkDataSlice (d_labels p) (d_weights p) ps (d_delta p).

(** Every [unsigned int] array of the slice holds values of that type. *)
Definition wf_slice (p : DataSlice) : Prop :=
  Forall is_u32 (d_labels p) ∧ Forall is_u32 (d_weights p).

Section Functor.

(** [ProblemData::MARK_PATHS], a compile-time constant of the problem type. *)
Variable MARK_PATHS : bool.

(** [SSSPFunctor::CondEdge].  [VertexId] is [int]; the result pairs the
    returned [bool] with the slice after the call. *)
Definition CondEdge (s_id d_id : Z) (problem : DataSlice) (e_id : Z)
  : option (bool * DataSlice) :=
  label ← Ld (d_labels problem) s_id;
  weight ← Ld (d_weights problem) e_id;
  let new_weight := u32 (weight + label) in
  '(old, labels') ← atomicMin (d_labels problem) d_id new_weight;
  Some (bool_decide (new_weight < old), set_labels labels' problem).

(** [SSSPFunctor::ApplyEdge]. *)
Definition ApplyEdge (s_id d_id : Z) (problem : DataSlice)
  : option DataSlice :=
  if MARK_PATHS then
    preds' ← St s_id (d_preds problem) d_id;
    Some (set_preds preds' problem)
  else Some problem.

(** [SSSPFunctor::CondFilter]. *)
Definition CondFilter (node : Z) (problem : DataSlice) : bool :=
  bool_decide (node ≠ -1).

(** [SSSPFunctor::ApplyFilter]: the body is empty. *)
Definition ApplyFilter (node : Z) (problem : DataSlice) : DataSlice :=
  problem.

(** [PQFunctor::ComputePriorityScore].  The conditional expression has the
    operands [weight] ([unsigned int]) and [weight/delta] ([float]): its type
    is [float], so both branches are converted, and the [return] converts the
    [float] back to [unsigned int]. *)
Definition ComputePriorityScore (node_id : Z) (problem : DataSlice)
  : option Z :=
  weight ← Ld (d_labels problem) node_id;
  let delta := d_delta problem in
  uint_of_float
    (if float_is_zero delta then float_of_uint weight
     else float_div (float_of_uint weight) delta).

(** One relaxation of the Advance step, as the operator contract runs the
    functor on an edge: [ApplyEdge] runs exactly when [CondEdge] returned
    [true]. *)
Definition relax (edge : Z * Z * Z) (problem : DataSlice)
  : option DataSlice :=
  let '(s_id, d_id, e_id) := edge in
  '(won, problem1) ← CondEdge s_id d_id problem e_id;
  if won : bool then ApplyEdge s_id d_id problem1 else Some problem1.

(** A sequence of relaxations, one after the other. *)
Fixpoint relax_all (edges : list (Z * Z * Z)) (problem : DataSlice)
  : option DataSlice :=
  match edges with
  | [] => Some problem
  | edge :: rest => problem1 ← relax edge problem; relax_all rest problem1
  end.

(** No label of [after] is above the label the same vertex has in
    [before]. *)
Definition labels_le (after before : DataSlice) : Prop :=
  Forall2 Z.le (d_labels after) (d_labels before).

(** The weighted path [0 -> 1] (weight 2), [1 -> 2] (weight 3) after a reset
    with source 0: every other label is the sentinel "infinity", every
    predecessor is [-1]. *)
Definition path_slice : DataSlice :=
  mkDataSlice [0; UINT_MAX; UINT_MAX] [2; 3] [-1; -1; -1] (S754_zero false).

(** The same path once both edges are relaxed. *)
Definition settled_slice : DataSlice :=
  mkDataSlice [0; 2; 5] [2; 3] [-1; 0; 1] (S754_zero false).

(** A vertex at distance [2^24 + 1], with delta [0]. *)
Definition far_slice : DataSlice :=
  mkDataSlice [16777217] [] [] (S754_zero false).

(** *** [CondEdge] as the threads of one Advance step execute it

    The two loads and the [atomicMin] of a call are separate memory
    operations: other threads may run between them.  A thread is at one of
    three points of [CondEdge]. *)
Inductive thread : Type :=
  | AtEntry (s_id d_id e_id : Z)
  | Loaded (d_id new_weight : Z)
  | Returned (result : bool).

Definition thread_step (t : thread) (problem : DataSlice)
  : option (thread * DataSlice) :=
  match t with
  | AtEntry s_id d_id e_id =>
      label ← Ld (d_labels problem) s_id;
      weight ← Ld (d_weights problem) e_id;
      Some (Loaded d_id (u32 (weight + label)), problem)
  | Loaded d_id new_weight =>
      '(old, labels') ← atomicMin (d_labels problem) d_id new_weight;
      Some (Returned (bool_decide (new_weight < old)),
            set_labels labels' problem)
  | Returned r => Some (Returned r, problem)
  end.

(** A schedule names, step by step, the thread that runs next. *)
Fixpoint run_schedule (schedule : list nat) (pool : list thread)
    (problem : DataSlice) : option (list thread * DataSlice) :=
  match schedule with
  | [] => Some (pool, problem)
  | i :: rest =>
      t ← pool !! i;
      '(t', problem1) ← thread_step t problem;
      run_schedule rest (<[i := t']> pool) problem1
  end.

End Functor.

(** Two edges into vertex 2, [0 -> 2] of weight 5 and [1 -> 2] of weight 1,
    from two sources at distance 0, relaxed by two threads. *)
Definition race_slice : DataSlice :=
  mkDataSlice [0; 0; UINT_MAX] [5; 1] [-1; -1; -1] (S754_zero false).

Definition race_pool : list thread := [AtEntry 0 2 0; AtEntry 1 2 1].

(** *** The device state around a data slice

    The functors receive a pointer to the data slice only.  The CSR arrays of
    the graph live beside it on the device; the edge weights are reached
    through the slice. *)
Record Device : Type := mkDevice {
  d_row_offsets : list Z;
  d_column_indices : list Z;
  data_slice : DataSlice
}.

(** The Graph Store as the device holds it. *)
Definition graph_store (dev : Device) : list Z * list Z * list Z :=
  (d_row_offsets dev, d_column_indices dev, d_weights (data_slice dev)).

(** A functor operation applied to the slice of a device. *)
Definition on_slice {A : Type} (op : DataSlice → option (A * DataSlice))
    (dev : Device) : option (A * Device) :=
  '(a, slice') ← op (data_slice dev);
  Some (a, mkDevice (d_row_offsets dev) (d_column_indices dev) slice').

(** The five functor operations, as calls on a device. *)
Inductive functor_call : Type :=
  | CallCondEdge (s_id d_id e_id : Z)
  | CallApplyEdge (s_id d_id : Z)
  | CallCondFilter (node : Z)
  | CallApplyFilter (node : Z)
  | CallComputePriorityScore (node_id : Z).

(** What a call returns. *)
Inductive functor_result : Type :=
  | RBool (b : bool)
  | RVoid
  | RScore (score : Z).

Definition exec (MARK_PATHS : bool) (c : functor_call) (dev : Device)
  : option (functor_result * Device) :=
  match c with
  | CallCondEdge s_id d_id e_id =>
      on_slice (λ p, '(b, p') ← CondEdge s_id d_id p e_id;
                     Some (RBool b, p')) dev
  | CallApplyEdge s_id d_id =>
      on_slice (λ p, p' ← ApplyEdge MARK_PATHS s_id d_id p;
                     Some (RVoid, p')) dev
  | CallCondFilter node =>
      on_slice (λ p, Some (RBool (CondFilter node p), p)) dev
  | CallApplyFilter node =>
      on_slice (λ p, Some (RVoid, ApplyFilter node p)) dev
  | CallComputePriorityScore node_id =>
      on_slice (λ p, score ← ComputePriorityScore node_id p;
                     Some (RScore score, p)) dev
  end.

End SSSP.

(** ** The connected-components entry point *)

Module CC.

(** *** The C interface ([gunrock.h])

    The enumerators and the fields of the structs that the driver
    mentions. *)

Inductive VtxIdType : Type := VTXID_INT.
Inductive SizeTType : Type := SIZET_INT.
Inductive ValueType : Type := VALUE_INT | VALUE_UINT | VALUE_FLOAT.

Record GunrockDataType : Type := mkDataType {
  VTXID_TYPE : VtxIdType;
  SIZET_TYPE : SizeTType;
  VALUE_TYPE : ValueType
}.

(** Modelled from the spec: [GunrockConfig], declared in [gunrock.h]; the
    recognized options are those of the configuration surface,
    [{ max_grid_size: int (0 = auto), num_partitions: int (≥1),
       mark_paths: bool, delta: float }]. *)
Record GunrockConfig : Type := mkConfig {
  max_grid_size : Z;
  num_partitions : Z;
  mark_paths : bool;
  delta : spec_float
}.

(** A pointer to a host array: [NULL] or the address of its block. *)
Definition ptr : Type := option nat.
Definition NULL : ptr := None.

Record GunrockGraph : Type := mkGraph {
  num_nodes : Z;
  num_edges : Z;
  row_offsets : ptr;
  col_indices : ptr;
  node_values : ptr
}.

(** [Csr<int, int, int>]: the fields [dispatch_cc] assigns. *)
Module Csr.
Record t : Type := mk {
  nodes : Z;
  edges : Z;
  row_offsets : ptr;
  column_indices : ptr
}.
End Csr.

(** *** The host state *)

(** A line [util::GRError] reports: the message, the source line of the call
    (with [__FILE__], the originating stage) and the error code. *)
Record report : Type := mkReport {
  message : string;
  line : Z;
  code : Z
}.

(** The calls made into the engine with the arguments the driver passed; a
    record kept beside the state, not part of the program. *)
Inductive engine_call : Type :=
  | CalledInit (stream_from_host : bool) (graph : Csr.t) (num_gpus : Z)
  | CalledReset
  | CalledEnact (max_grid_size : Z)
  | CalledExtract (h_component_ids : nat)
  | CalledComputeCCHistogram.

Record Host : Type := mkHost {
  gout : GunrockGraph;            (* the struct [ggraph_out] points to *)
  mem : gmap nat (list Z);        (* the host arrays, by address *)
  stdout : list string;
  stderr : list report;
  calls : list engine_call
}.

Definition M (A : Type) : Type := Host → A * Host.

Definition ret {A : Type} (a : A) : M A := λ h, (a, h).

Definition bind {A B : Type} (m : M A) (k : A → M B) : M B :=
  λ h, let '(a, h1) := m h in k a h1.

Declare Scope host_scope.
Delimit Scope host_scope with host.
Notation "'let*' x ':=' m 'in' k" := (bind m (λ x, k))
  (at level 10, x pattern, m at level 100, k at level 200) : host_scope.
Notation "m ';;' k" := (bind m (λ _, k))
  (at level 100, k at level 200, right associativity) : host_scope.

Definition modify (f : Host → Host) : M unit := λ h, (tt, f h).

Definition printf (text : string) : M unit :=
  modify (λ h, mkHost (gout h) (mem h) (stdout h ++ [text]) (stderr h)
                      (calls h)).

Definition record_call (c : engine_call) : M unit :=
  modify (λ h, mkHost (gout h) (mem h) (stdout h) (stderr h)
                      (calls h ++ [c])).

(** [malloc(sizeof(VertexId) * n)]: a block at an address not in use.  Its
    contents are indeterminate until written; zeros stand for them. *)
Definition malloc (n : Z) : M nat :=
  λ h, let a := fresh (dom (mem h)) in
       (a, mkHost (gout h) (<[a := replicate (Z.to_nat n) 0]> (mem h))
                  (stdout h) (stderr h) (calls h)).

Definition write_block (a : nat) (contents : list Z) : M unit :=
  modify (λ h, mkHost (gout h) (<[a := contents]> (mem h)) (stdout h)
                      (stderr h) (calls h)).

Definition with_node_values (p : ptr) (g : GunrockGraph) : GunrockGraph :=
  mkGraph (num_nodes g) (num_edges g) (row_offsets g) (col_indices g) p.

(** [ggraph_out->node_values = p]. *)
Definition set_node_values (p : ptr) : M unit :=
  modify (λ h, mkHost (with_node_values p (gout h)) (mem h) (stdout h)
                      (stderr h) (calls h)).

Definition cudaSuccess : Z := 0.

(** Modelled from the spec: [util::GRError], defined in the library's error
    utilities.  A failure is reported with its human-readable message and the
    originating stage; the error is handed back and the process goes on. *)
Definition GRError (error : Z) (message : string) (line : Z) : M Z :=
  λ h, (error,
        if decide (error = cudaSuccess) then h
        else mkHost (gout h) (mem h) (stdout h)
                    (stderr h ++ [mkReport message line error]) (calls h)).

(** *** The engine

    [CCProblem] and [CCEnactor] are the template arguments of the driver.
    Their operations return a [cudaError_t]; they read the graph through the
    pointers of the [Csr] object they are given and work on the problem. *)
Class Engine : Type := mkEngine {
  Problem : Type;
  new_Problem : Problem;
  Init : bool → Csr.t → gmap nat (list Z) → Z → Problem → Z * Problem;
  FrontierType : Type;
  GetFrontierType : FrontierType;
  Reset : FrontierType → Problem → Z * Problem;
  Enact : Problem → Z → Z * Problem;
  (* the error and the [n] component ids copied to the host buffer *)
  Extract : Problem → Z → Z * list Z
}.

Section Driver.

Context {engine : Engine}.

Local Open Scope host_scope.

(** [run_cc<VertexId, Value, SizeT>]. *)
Definition run_cc (csr_graph : Csr.t) (max_grid_size num_gpus : Z)
  : M unit :=
  let* h_component_ids := malloc (Csr.nodes csr_graph) in
  let csr_problem := new_Problem in
  let* host_mem := (λ h, (mem h, h)) in
  record_call (CalledInit false csr_graph num_gpus);;
  let '(e_init, csr_problem) :=
    Init false csr_graph host_mem num_gpus csr_problem in
  GRError e_init "CC Problem Initialization Failed" 154;;
  record_call CalledReset;;
  let '(e_reset, csr_problem) := Reset GetFrontierType csr_problem in
  GRError e_reset "CC Problem Data Reset Failed" 159;;
  record_call (CalledEnact max_grid_size);;
  let '(e_enact, csr_problem) := Enact csr_problem max_grid_size in
  GRError e_enact "CC Problem Enact Failed" 167;;
  record_call (CalledExtract h_component_ids);;
  let '(e_extract, ids) := Extract csr_problem (Csr.nodes csr_graph) in
  write_block h_component_ids ids;;
  GRError e_extract "CC Problem Data Extraction Failed" 173;;
  (* [h_roots] and [h_histograms] are allocated, filled and deleted *)
  record_call CalledComputeCCHistogram;;
  set_node_values (Some h_component_ids);;
  (* the elapsed time that fills [%lf] is not modelled *)
  printf "GPU Connected Component finished in %lf msec.".

(** What the four engine operations of [run_cc] hand back, each working on
    the problem the one before it left; [host_mem] is the host memory at the
    call of [Init]. *)
Definition init_result (csr_graph : Csr.t) (num_gpus : Z)
    (host_mem : gmap nat (list Z)) : Z * Problem :=
  Init false csr_graph host_mem num_gpus new_Problem.

Definition reset_result (csr_graph : Csr.t) (num_gpus : Z)
    (host_mem : gmap nat (list Z)) : Z * Problem :=
  Reset GetFrontierType (init_result csr_graph num_gpus host_mem).2.

Definition enact_result (csr_graph : Csr.t) (max_grid_size num_gpus : Z)
    (host_mem : gmap nat (list Z)) : Z * Problem :=
  Enact (reset_result csr_graph num_gpus host_mem).2 max_grid_size.

Definition extract_result (csr_graph : Csr.t) (max_grid_size num_gpus : Z)
    (host_mem : gmap nat (list Z)) : Z * list Z :=
  Extract (enact_result csr_graph max_grid_size num_gpus host_mem).2
          (Csr.nodes csr_graph).

(** [dispatch_cc]; [ggraph_out] is the [gout] of the host state. *)
Definition dispatch_cc (ggraph_in : GunrockGraph) (cc_config : GunrockConfig)
    (data_type : GunrockDataType) : M unit :=
  match VTXID_TYPE data_type with
  | VTXID_INT =>
      match SIZET_TYPE data_type with
      | SIZET_INT =>
          match VALUE_TYPE data_type with
          | VALUE_INT =>
              let csr_graph :=
                Csr.mk (num_nodes ggraph_in) (num_edges ggraph_in)
                       (row_offsets ggraph_in) (col_indices ggraph_in) in
              let max_grid_size := 0 in
              let num_gpus := 1 in
              run_cc csr_graph max_grid_size num_gpus;;
              (* the local [csr_graph] forgets the caller's arrays *)
              let csr_graph :=
                Csr.mk (Csr.nodes csr_graph) (Csr.edges csr_graph)
                       NULL NULL in
              ret tt
          | VALUE_UINT =>
              printf "Not Yet Support This DataType Combination."
          | VALUE_FLOAT =>
              printf "Not Yet Support This DataType Combination."
          end
      end
  end.

(** [gunrock_cc_func]. *)
Definition gunrock_cc_func (ggraph_in : GunrockGraph)
    (cc_configs : GunrockConfig) (data_type : GunrockDataType) : M unit :=
  dispatch_cc ggraph_in cc_configs data_type.

End Driver.

(** *** What the design document promises the caller *)

(** Modelled from the spec: the structured result of the exit/result
    contract, "distinguishing success, initialization failure, and enact
    failure, each carrying a human-readable message and the originating
    stage", and the declared "unsupported type combination" result of the
    data-type dispatch.  No such type exists in the driver. *)
Inductive Result : Type :=
  | Success
  | InitializationFailure (message : string) (stage : Z)
  | EnactFailure (message : string) (stage : Z)
  | UnsupportedTypeCombination.

(** The configuration reached the engine: [Enact] was called with the
    configured [max_grid_size] and [Init] with the configured
    [num_partitions]. *)
Definition config_applied (cc_config : GunrockConfig) (h : Host) : Prop :=
  CalledEnact (max_grid_size cc_config) ∈ calls h
  ∧ ∃ stream graph, CalledInit stream graph (num_partitions cc_config) ∈ calls h.

(** The reports of one stage: nothing on success. *)
Definition reports_of (error : Z) (message : string) (line : Z)
  : list report :=
  if decide (error = cudaSuccess) then [] else [mkReport message line error].

(** The [Csr] object [dispatch_cc] builds over the caller's arrays. *)
Definition csr_of (ggraph_in : GunrockGraph) : Csr.t :=
  Csr.mk (num_nodes ggraph_in) (num_edges ggraph_in)
         (row_offsets ggraph_in) (col_indices ggraph_in).

(** *** Engines to run the driver on

    An engine without a device: each operation hands back a fixed error code,
    and [Extract] puts every vertex in component 0. *)
Definition fixed_engine (e_init e_reset e_enact e_extract : Z) : Engine :=
  mkEngine unit tt
    (λ _ _ _ _ problem, (e_init, problem))
    unit tt
    (λ _ problem, (e_reset, problem))
    (λ problem _, (e_enact, problem))
    (λ _ n, (e_extract, replicate (Z.to_nat n) 0)).

Definition engine_ok : Engine := fixed_engine 0 0 0 0.
(* [cudaErrorMemoryAllocation] at [Init] *)
Definition engine_init_fails : Engine := fixed_engine 2 0 0 0.
(* [cudaErrorLaunchFailure] at [Enact] *)
Definition engine_enact_fails : Engine := fixed_engine 0 0 4 0.

(** A path of three vertices, [0 - 1 - 2], in CSR form at addresses 0 and 1;
    the output struct starts empty. *)
Definition path3 : GunrockGraph := mkGraph 3 4 (Some 0%nat) (Some 1%nat) NULL.

Definition host0 : Host :=
  mkHost (mkGraph 0 0 NULL NULL NULL)
         (<[0%nat := [0; 1; 3; 4]]> (<[1%nat := [1; 0; 2; 1]]> ∅))
         [] [] [].

Definition int_types : GunrockDataType :=
  mkDataType VTXID_INT SIZET_INT VALUE_INT.
Definition uint_values : GunrockDataType :=
  mkDataType VTXID_INT SIZET_INT VALUE_UINT.
Definition float_values : GunrockDataType :=
  mkDataType VTXID_INT SIZET_INT VALUE_FLOAT.

Definition config0 : GunrockConfig := mkConfig 0 1 false (S754_zero false).
Definition config8 : GunrockConfig := mkConfig 8 2 true (S754_zero false).

End CC.

(** ** Displaying the components *)

Module Display.

(** [CcList<VertexId>]: a component's root and its number of vertices. *)
Record CcList : Type := mkCcList {
  root : Z;
  histogram : Z
}.

(** [CCCompare]. *)
Definition CCCompare (elem1 elem2 : CcList) : bool :=
  bool_decide (histogram elem1 > histogram elem2).

(** [std::stable_sort(first, last, comp)].  The standard fixes its result:
    the elements in an order where no element is [comp]-before one that
    precedes it, equivalent elements in their original order.  Inserting
    each element, from the last to the first, in front of the first one that
    is not [comp]-before it computes that order. *)
Fixpoint stable_insert {A : Type} (comp : A → A → bool) (x : A)
    (sorted : list A) : list A :=
  match sorted with
  | [] => [x]
  | y :: rest =>
      if comp y x then y :: stable_insert comp x rest else x :: y :: rest
  end.

Fixpoint stable_sort {A : Type} (comp : A → A → bool) (l : list A)
  : list A :=
  match l with
  | [] => []
  | x :: rest => stable_insert comp x (stable_sort comp rest)
  end.

(** What a call leaves on the standard output: the [printf] calls with
    their format (less the final newline) and arguments, and the calls of
    [util::PrintValue]. *)
Inductive output : Type :=
  | Printf (format : string) (args : list Z)
  | PrintValue (value : Z).

(** The body of the first loop, for vertex [i]. *)
Definition print_vertex (component_ids : list Z) (i : Z)
  : option (list output) :=
  id ← Ld component_ids i;
  Some [PrintValue i; Printf ":" []; PrintValue id; Printf "," [];
        Printf " " []].

(** The body of the loop that fills [cclist], for component [i]. *)
Definition load_component (roots histogram : list Z) (i : Z)
  : option CcList :=
  r ← Ld roots i;
  h ← Ld histogram i;
  Some (mkCcList r h).

(** The body of the last loop, for rank [i]. *)
Definition print_component (i : nat) (c : CcList) : output :=
  Printf "CC_ID: %d, CC_Root: %d, CC_Size: %d"
         [Z.of_nat i; root c; Display.histogram c].

(** [DisplaySolution<VertexId, SizeT>]; [num_components] is an
    [unsigned int]. *)
Definition DisplaySolution (component_ids : list Z) (num_nodes : Z)
    (num_components : Z) (roots histogram : list Z)
  : option (list output) :=
  let header := Printf "Number of components: %d" [num_components] in
  if decide (num_nodes ≤ 40) then
    listing ← mapM (print_vertex component_ids)
                   (seqZ 0 num_nodes);
    Some ([header; Printf "[" []] ++ concat listing ++ [Printf "]" []])
  else
    cclist ← mapM (load_component roots histogram)
                  (seqZ 0 num_components);
    let cclist := stable_sort CCCompare cclist in
    let top := if decide (num_components < 10) then num_components else 10 in
    Some ([header; Printf "Top %d largest components:" [top]]
          ++ imap print_component (take (Z.to_nat top) cclist)).

(** The order the sort leaves the components in: never a smaller one before
    a larger one. *)
Definition by_size_desc (a b : CcList) : Prop := histogram b ≤ histogram a.

End Display.

(** ** Pending writes of an Advance step *)

(** The candidates the threads of a pool still hold for vertex [d_id]: those
    of the threads that are past their loads and before their
    [atomicMin]. *)
Definition pending (d_id : Z) (pool : list SSSP.thread) : list Z :=
  omap (λ t, match t with
             | SSSP.Loaded d new_weight =>
                 if decide (d = d_id) then Some new_weight else None
             | _ => None
             end) pool.

(** No thread of the pool is still before its loads. *)
Definition past_loads (pool : list SSSP.thread) : Prop :=
  Forall (λ t, match t with SSSP.AtEntry _ _ _ => False | _ => True end) pool.

(** Every thread of the pool has returned. *)
Definition all_returned (pool : list SSSP.thread) : Prop :=
  Forall (λ t, match t with SSSP.Returned _ => True | _ => False end) pool.

(** * Properties *)

(** ** Arrays *)

Section Arrays.

Implicit Types (a : list Z) (i j val : Z).

Lemma Ld_Some a i x :
  Ld a i = Some x ↔ 0 ≤ i ∧ a !! Z.to_nat i = Some x.
Proof.
  unfold Ld. case_decide.
  - split; [done | by intros [_ ?]].
  - split; [done | intros [? _]; lia].
Qed.

Lemma Ld_in_range a i x : Ld a i = Some x → 0 ≤ i < Z.of_nat (length a).
Proof.
  intros [Hi Hx]%Ld_Some. apply lookup_lt_Some in Hx. lia.
Qed.

Lemma Ld_defined a i :
  0 ≤ i < Z.of_nat (length a) → ∃ x, Ld a i = Some x.
Proof.
  intros Hi. destruct (lookup_lt_is_Some_2 a (Z.to_nat i)) as [x Hx]; [lia|].
  exists x. apply Ld_Some. split; [lia|done].
Qed.

Lemma Ld_insert_eq a i val x :
  Ld a i = Some x → Ld (<[Z.to_nat i := val]> a) i = Some val.
Proof.
  intros H. pose proof (Ld_in_range _ _ _ H).
  apply Ld_Some. split; [lia|]. apply list_lookup_insert_eq. lia.
Qed.

Lemma Ld_insert_ne a i j val :
  i ≠ j → 0 ≤ i → Ld (<[Z.to_nat i := val]> a) j = Ld a j.
Proof.
  intros Hne Hi. unfold Ld. destruct (decide (0 ≤ j)); [|done].
  apply list_lookup_insert_ne. lia.
Qed.

Lemma atomicMin_Some a i val old :
  Ld a i = Some old →
  atomicMin a i val = Some (old, <[Z.to_nat i := Z.min old val]> a).
Proof. intros H. unfold atomicMin. by rewrite H. Qed.

Lemma atomicMin_inv a i val old a' :
  atomicMin a i val = Some (old, a') →
  Ld a i = Some old ∧ a' = <[Z.to_nat i := Z.min old val]> a.
Proof.
  unfold atomicMin. destruct (Ld a i) as [x|] eqn:E; simpl; [|done].
  intros [= <- <-]. done.
Qed.

(** An [atomicMin] never raises an entry. *)
Lemma atomicMin_le a i val old a' :
  atomicMin a i val = Some (old, a') → Forall2 Z.le a' a.
Proof.
  intros [[Hi Hold]%Ld_Some ->]%atomicMin_inv.
  apply Forall2_same_length_lookup_2; [by rewrite length_insert|].
  intros k x y Hx Hy.
  destruct (decide (k = Z.to_nat i)) as [->|Hk].
  - rewrite list_lookup_insert_eq in Hx by (by eapply lookup_lt_Some).
    simplify_eq. lia.
  - rewrite list_lookup_insert_ne in Hx by done. simplify_eq. lia.
Qed.

Lemma St_Some val a i :
  0 ≤ i < Z.of_nat (length a) → St val a i = Some (<[Z.to_nat i := val]> a).
Proof. intros H. unfold St. by rewrite decide_True. Qed.

Lemma u32_range z : is_u32 (u32 z).
Proof.
  unfold is_u32, u32, UINT_MAX.
  pose proof (Z.mod_pos_bound z (2 ^ 32)). lia.
Qed.

Lemma u32_small z : 0 ≤ z ≤ UINT_MAX → u32 z = z.
Proof. unfold u32, UINT_MAX. intros. apply Z.mod_small. lia. Qed.

(** Two [unsigned int]s whose sum overflows: the sum wraps once. *)
Lemma u32_wrap x y :
  is_u32 x → is_u32 y → UINT_MAX < x + y → u32 (x + y) = x + y - 2 ^ 32.
Proof.
  unfold is_u32, u32, UINT_MAX. intros Hx Hy Hov.
  symmetry. apply (Z.mod_unique _ _ 1); lia.
Qed.

End Arrays.

(** ** The SSSP functor *)

Section SSSP_properties.

Import SSSP.

Implicit Types (problem p : DataSlice) (s_id d_id e_id node : Z).

(** What [CondEdge] does when its three accesses are in range. *)
Lemma CondEdge_eval s_id d_id e_id p label weight old :
  Ld (d_labels p) s_id = Some label →
  Ld (d_weights p) e_id = Some weight →
  Ld (d_labels p) d_id = Some old →
  CondEdge s_id d_id p e_id =
    Some (bool_decide (u32 (weight + label) < old),
          set_labels (<[Z.to_nat d_id := Z.min old (u32 (weight + label))]>
                        (d_labels p)) p).
Proof.
  intros Hs He Hd. unfold CondEdge. rewrite Hs, He. simpl.
  by rewrite (atomicMin_Some _ _ _ _ Hd).
Qed.

(** Whenever [CondEdge] returns, its three accesses were in range. *)
Lemma CondEdge_inv s_id d_id e_id p b p' :
  CondEdge s_id d_id p e_id = Some (b, p') →
  ∃ label weight old,
    Ld (d_labels p) s_id = Some label
    ∧ Ld (d_weights p) e_id = Some weight
    ∧ Ld (d_labels p) d_id = Some old
    ∧ b = bool_decide (u32 (weight + label) < old)
    ∧ p' = set_labels (<[Z.to_nat d_id := Z.min old (u32 (weight + label))]>
                         (d_labels p)) p.
Proof.
  unfold CondEdge. intros H.
  destruct (Ld (d_labels p) s_id) as [label|] eqn:Hs; simpl in H; [|done].
  destruct (Ld (d_weights p) e_id) as [weight|] eqn:He; simpl in H; [|done].
  destruct (atomicMin (d_labels p) d_id (u32 (weight + label)))
    as [[old labels']|] eqn:Ha; simpl in H; [|done].
  apply atomicMin_inv in Ha as [Hd ->]. simplify_eq.
  by exists label, weight, old.
Qed.

Lemma CondEdge_labels_le s_id d_id e_id p b p' :
  CondEdge s_id d_id p e_id = Some (b, p') → labels_le p' p.
Proof.
  intros (label & weight & old & _ & _ & Hd & _ & ->)%CondEdge_inv.
  unfold labels_le. simpl.
  eapply atomicMin_le. by apply atomicMin_Some.
Qed.

Lemma CondEdge_frame s_id d_id e_id p b p' :
  CondEdge s_id d_id p e_id = Some (b, p') →
  d_weights p' = d_weights p ∧ d_preds p' = d_preds p
  ∧ d_delta p' = d_delta p.
Proof.
  by intros (label & weight & old & _ & _ & _ & _ & ->)%CondEdge_inv.
Qed.

Lemma ApplyEdge_inv MARK_PATHS s_id d_id p p' :
  ApplyEdge MARK_PATHS s_id d_id p = Some p' →
  d_labels p' = d_labels p ∧ d_weights p' = d_weights p
  ∧ d_delta p' = d_delta p
  ∧ d_preds p' = if MARK_PATHS then <[Z.to_nat d_id := s_id]> (d_preds p)
                 else d_preds p.
Proof.
  unfold ApplyEdge, St. destruct MARK_PATHS.
  - case_decide; simpl; [|done]. by intros [= <-].
  - by intros [= <-].
Qed.

Global Instance labels_le_refl : Reflexive labels_le.
Proof. intros p. unfold labels_le. apply Forall2_same_length_lookup_2; [done|].
  intros; simplify_eq; lia. Qed.

Global Instance labels_le_trans : Transitive labels_le.
Proof.
  intros p1 p2 p3. unfold labels_le. intros H12 H23.
  eapply Forall2_trans; [|done..]. intros x y z ??. lia.
Qed.

Lemma labels_le_Ld after before node x :
  labels_le after before → Ld (d_labels before) node = Some x →
  ∃ x', Ld (d_labels after) node = Some x' ∧ x' ≤ x.
Proof.
  unfold labels_le. intros Hle [Hn Hx]%Ld_Some.
  destruct (Forall2_lookup_r _ _ _ _ _ Hle Hx) as (x' & Hx' & Hxx).
  exists x'. split; [by apply Ld_Some|done].
Qed.

Lemma relax_labels_le MARK_PATHS edge p p' :
  relax MARK_PATHS edge p = Some p' → labels_le p' p.
Proof.
  destruct edge as [[s_id d_id] e_id]. unfold relax.
  destruct (CondEdge s_id d_id p e_id) as [[won p1]|] eqn:Hc; simpl; [|done].
  apply CondEdge_labels_le in Hc. destruct won.
  - intros [Hl _]%ApplyEdge_inv. unfold labels_le in *. by rewrite Hl.
  - by intros [= <-].
Qed.

Lemma relax_all_labels_le MARK_PATHS edges p p' :
  relax_all MARK_PATHS edges p = Some p' → labels_le p' p.
Proof.
  revert p. induction edges as [|edge rest IH]; intros p; simpl.
  - by intros [= <-].
  - destruct (relax MARK_PATHS edge p) as [p1|] eqn:H1; simpl; [|done].
    intros H2. etrans; [by apply IH|by eapply relax_labels_le].
Qed.

(** C1.  A call [CondEdge(s, d, problem, e_id)] whose accesses are in range
    computes the candidate [labels[s] + weight[e_id]] (an [unsigned int] sum,
    equal to the exact sum whenever that fits), replaces [labels[d]] by the
    minimum of its value and the candidate, touches no other label, and
    returns [true] exactly when the candidate is strictly below the value
    [labels[d]] held before, that is, exactly when this write strictly
    lowered [labels[d]]. *)
Theorem CondEdge_min_and_winner s_id d_id e_id p label weight old :
  Ld (d_labels p) s_id = Some label →
  Ld (d_weights p) e_id = Some weight →
  Ld (d_labels p) d_id = Some old →
  ∃ b p',
    CondEdge s_id d_id p e_id = Some (b, p')
    ∧ Ld (d_labels p') d_id = Some (Z.min old (u32 (label + weight)))
    ∧ (b = true ↔ u32 (label + weight) < old)
    ∧ (b = true ↔ Z.min old (u32 (label + weight)) < old)
    ∧ (∀ node, node ≠ d_id → Ld (d_labels p') node = Ld (d_labels p) node)
    ∧ (0 ≤ label → 0 ≤ weight → label + weight ≤ UINT_MAX →
       u32 (label + weight) = label + weight).
Proof.
  intros Hs He Hd.
  eexists _, _. split; [by apply CondEdge_eval|].
  rewrite (Z.add_comm weight label). simpl.
  pose proof (Ld_in_range _ _ _ Hd) as Hr.
  split; [by eapply Ld_insert_eq|].
  split; [apply bool_decide_eq_true|].
  split; [rewrite bool_decide_eq_true; lia|].
  split; [intros node Hn; apply Ld_insert_ne; [done|lia]|].
  intros. apply u32_small. lia.
Qed.

Lemma CondEdge_min_and_winner_witness :
  Ld (d_labels path_slice) 0 = Some 0
  ∧ Ld (d_weights path_slice) 0 = Some 2
  ∧ Ld (d_labels path_slice) 1 = Some UINT_MAX
  ∧ ∃ b p',
      CondEdge 0 1 path_slice 0 = Some (b, p')
      ∧ Ld (d_labels p') 1 = Some (Z.min UINT_MAX (u32 (0 + 2)))
      ∧ (b = true ↔ u32 (0 + 2) < UINT_MAX)
      ∧ (b = true ↔ Z.min UINT_MAX (u32 (0 + 2)) < UINT_MAX)
      ∧ (∀ node, node ≠ 1 →
           Ld (d_labels p') node = Ld (d_labels path_slice) node)
      ∧ (0 ≤ 0 → 0 ≤ 2 → 0 + 2 ≤ UINT_MAX → u32 (0 + 2) = 0 + 2).
Proof.
  split; [reflexivity|]. split; [reflexivity|]. split; [reflexivity|].
  apply (CondEdge_min_and_winner 0 1 0 path_slice 0 2 UINT_MAX);
    reflexivity.
Defined.

(** C2.  No label ever increases: after a call of [CondEdge], and after any
    sequence of relaxations of the Advance step (with or without path
    marking), every vertex that had a label still has one, and it is less
    than or equal to the label it had. *)
Theorem labels_never_increase :
  (∀ s_id d_id e_id p b p',
     CondEdge s_id d_id p e_id = Some (b, p') →
     length (d_labels p') = length (d_labels p)
     ∧ ∀ node x, Ld (d_labels p) node = Some x →
         ∃ x', Ld (d_labels p') node = Some x' ∧ x' ≤ x)
  ∧ (∀ MARK_PATHS edges p p',
       relax_all MARK_PATHS edges p = Some p' →
       length (d_labels p') = length (d_labels p)
       ∧ ∀ node x, Ld (d_labels p) node = Some x →
           ∃ x', Ld (d_labels p') node = Some x' ∧ x' ≤ x).
Proof.
  split.
  - intros s_id d_id e_id p b p' H%CondEdge_labels_le. split.
    + by eapply Forall2_length.
    + intros node x. by apply labels_le_Ld.
  - intros MARK_PATHS edges p p' H%relax_all_labels_le. split.
    + by eapply Forall2_length.
    + intros node x. by apply labels_le_Ld.
Qed.

Lemma labels_never_increase_witness :
  relax_all true [(0, 1, 0); (1, 2, 1)] path_slice
    = Some (mkDataSlice [0; 2; 5] [2; 3] [-1; 0; 1] (S754_zero false))
  ∧ ∃ x', Ld [0; 2; 5] 2 = Some x' ∧ x' ≤ UINT_MAX.
Proof.
  assert (relax_all true [(0, 1, 0); (1, 2, 1)] path_slice
          = Some (mkDataSlice [0; 2; 5] [2; 3] [-1; 0; 1] (S754_zero false)))
    as Hrun by reflexivity.
  split; [exact Hrun|].
  exact (proj2 (proj2 labels_never_increase _ _ _ _ Hrun) 2 UINT_MAX
               eq_refl).
Defined.

(** C6.  [ApplyEdge(s, d, problem)] with path marking records
    [predecessors[d] = s] and leaves every other predecessor as it was; without
    path marking it changes nothing; in both cases the labels, the weights
    and delta are untouched. *)
Theorem ApplyEdge_marks_only_predecessor s_id d_id p :
  (0 ≤ d_id < Z.of_nat (length (d_preds p)) →
   ∃ p', ApplyEdge true s_id d_id p = Some p'
         ∧ Ld (d_preds p') d_id = Some s_id
         ∧ ∀ node, node ≠ d_id → Ld (d_preds p') node = Ld (d_preds p) node)
  ∧ ApplyEdge false s_id d_id p = Some p
  ∧ ∀ MARK_PATHS p',
      ApplyEdge MARK_PATHS s_id d_id p = Some p' →
      d_labels p' = d_labels p ∧ d_weights p' = d_weights p
      ∧ d_delta p' = d_delta p
      ∧ length (d_preds p') = length (d_preds p).
Proof.
  split; [|split; [done|]].
  - intros Hd. unfold ApplyEdge. rewrite St_Some by done. simpl.
    eexists. split; [done|]. simpl. split.
    + destruct (Ld_defined (d_preds p) d_id Hd) as [x Hx].
      by eapply Ld_insert_eq.
    + intros node Hn. apply Ld_insert_ne; [done|lia].
  - intros MARK_PATHS p' (Hl & Hw & Hdl & Hp)%ApplyEdge_inv.
    repeat split; try done. rewrite Hp.
    destruct MARK_PATHS; [apply length_insert|done].
Qed.

Lemma ApplyEdge_marks_only_predecessor_witness :
  0 ≤ 1 < Z.of_nat (length (d_preds path_slice))
  ∧ ∃ p', ApplyEdge true 0 1 path_slice = Some p'
          ∧ Ld (d_preds p') 1 = Some 0
          ∧ ∀ node, node ≠ 1 →
              Ld (d_preds p') node = Ld (d_preds path_slice) node.
Proof.
  assert (0 ≤ 1 < Z.of_nat (length (d_preds path_slice))) as H
    by (simpl; lia).
  split; [exact H|].
  exact (proj1 (ApplyEdge_marks_only_predecessor 0 1 path_slice) H).
Defined.

(** C7.  The filter of SSSP is pure compaction: [CondFilter(v, problem)] is
    [true] exactly when [v] is not the sentinel [-1], whatever the problem
    state, and [ApplyFilter] leaves the problem state as it is. *)
Theorem filter_is_pure_compaction node p :
  (CondFilter node p = true ↔ node ≠ -1) ∧ ApplyFilter node p = p.
Proof.
  split; [|done]. unfold CondFilter. apply bool_decide_eq_true.
Qed.

(** C10.  The candidate of [CondEdge] is the sum modulo [2^32].  When the two
    [unsigned int] operands add up to more than [2^32 - 1], the candidate is
    the sum less [2^32]; if that is below [labels[d]], the call returns
    [true] and stores it.  With [labels[s]] the infinity sentinel and an edge
    of weight 3, an unreached source gives its neighbour the distance 2. *)
Theorem CondEdge_candidate_wraps :
  (∀ s_id d_id e_id p label weight old,
     Ld (d_labels p) s_id = Some label →
     Ld (d_weights p) e_id = Some weight →
     Ld (d_labels p) d_id = Some old →
     ∃ p', CondEdge s_id d_id p e_id
             = Some (bool_decide ((label + weight) mod 2 ^ 32 < old), p')
           ∧ Ld (d_labels p') d_id
             = Some (Z.min old ((label + weight) mod 2 ^ 32)))
  ∧ (∀ s_id d_id e_id p label weight old,
       Ld (d_labels p) s_id = Some label →
       Ld (d_weights p) e_id = Some weight →
       Ld (d_labels p) d_id = Some old →
       is_u32 label → is_u32 weight →
       UINT_MAX < label + weight →
       label + weight - 2 ^ 32 < old →
       ∃ p', CondEdge s_id d_id p e_id = Some (true, p')
             ∧ Ld (d_labels p') d_id = Some (label + weight - 2 ^ 32))
  ∧ ∃ p', CondEdge 1 2 path_slice 1 = Some (true, p')
          ∧ Ld (d_labels p') 2 = Some 2.
Proof.
  split; [|split].
  - intros s_id d_id e_id p label weight old Hs He Hd.
    eexists. split; [rewrite (Z.add_comm label weight);
                     by apply CondEdge_eval|].
    simpl. rewrite (Z.add_comm weight label). by eapply Ld_insert_eq.
  - intros s_id d_id e_id p label weight old Hs He Hd Hl Hw Hov Hlt.
    eexists. rewrite (CondEdge_eval _ _ _ _ _ _ _ Hs He Hd).
    rewrite (Z.add_comm weight label), u32_wrap by done.
    split; [by rewrite bool_decide_eq_true_2|].
    simpl. rewrite Z.min_r by lia. by eapply Ld_insert_eq.
  - eexists. split; reflexivity.
Qed.

Lemma CondEdge_candidate_wraps_witness :
  is_u32 UINT_MAX ∧ is_u32 3 ∧ UINT_MAX < UINT_MAX + 3
  ∧ UINT_MAX + 3 - 2 ^ 32 < UINT_MAX
  ∧ ∃ p', CondEdge 1 2 path_slice 1 = Some (true, p')
          ∧ Ld (d_labels p') 2 = Some (UINT_MAX + 3 - 2 ^ 32).
Proof.
  assert (is_u32 UINT_MAX) as H1 by (unfold is_u32, UINT_MAX; lia).
  assert (is_u32 3) as H2 by (unfold is_u32, UINT_MAX; lia).
  assert (UINT_MAX < UINT_MAX + 3) as H3 by lia.
  assert (UINT_MAX + 3 - 2 ^ 32 < UINT_MAX) as H4
    by (unfold UINT_MAX; lia).
  repeat (split; [assumption|]).
  exact (proj1 (proj2 CondEdge_candidate_wraps) 1 2 1 path_slice
               UINT_MAX 3 UINT_MAX eq_refl eq_refl eq_refl H1 H2 H3 H4).
Defined.

Lemma exec_graph_store MARK_PATHS c dev r dev' :
  exec MARK_PATHS c dev = Some (r, dev') →
  graph_store dev' = graph_store dev.
Proof.
  destruct dev as [ro ci slice]. unfold graph_store.
  destruct c; unfold exec, on_slice; cbn [data_slice d_row_offsets
                                           d_column_indices].
  - destruct (CondEdge s_id d_id slice e_id) as [[b p']|] eqn:Hc;
      simpl; [|done].
    intros [= <- <-]. simpl.
    by destruct (CondEdge_frame _ _ _ _ _ _ Hc) as (-> & _).
  - destruct (ApplyEdge MARK_PATHS s_id d_id slice) as [p'|] eqn:Ha;
      simpl; [|done].
    intros [= <- <-]. simpl.
    by destruct (ApplyEdge_inv _ _ _ _ _ Ha) as (_ & -> & _).
  - simpl. by intros [= <- <-].
  - simpl. by intros [= <- <-].
  - destruct (ComputePriorityScore node_id slice) as [score|]; simpl; [|done].
    by intros [= <- <-].
Qed.

(** *** Threads *)

(** A call of [CondEdge] is its thread run to the end without
    interruption. *)
Lemma CondEdge_as_thread s_id d_id e_id p :
  CondEdge s_id d_id p e_id =
    '(t1, p1) ← thread_step (AtEntry s_id d_id e_id) p;
    '(t2, p2) ← thread_step t1 p1;
    match t2 with Returned b => Some (b, p2) | _ => None end.
Proof.
  unfold CondEdge, thread_step.
  destruct (Ld (d_labels p) s_id) as [label|]; simpl; [|done].
  destruct (Ld (d_weights p) e_id) as [weight|]; simpl; [|done].
  by destruct (atomicMin (d_labels p) d_id (u32 (weight + label)))
    as [[old labels']|].
Qed.

Lemma thread_step_labels_le t p t' p' :
  thread_step t p = Some (t', p') → labels_le p' p.
Proof.
  destruct t as [s_id d_id e_id|d_id new_weight|r]; simpl.
  - destruct (Ld (d_labels p) s_id); simpl; [|done].
    destruct (Ld (d_weights p) e_id); simpl; [|done].
    by intros [= <- <-].
  - destruct (atomicMin (d_labels p) d_id new_weight)
      as [[old labels']|] eqn:Ha; simpl; [|done].
    intros [= <- <-]. unfold labels_le. simpl. by eapply atomicMin_le.
  - by intros [= <- <-].
Qed.

(** Under every interleaving of the threads of an Advance step the labels
    only go down. *)
Theorem run_schedule_labels_le schedule pool p pool' p' :
  run_schedule schedule pool p = Some (pool', p') → labels_le p' p.
Proof.
  revert pool p. induction schedule as [|i rest IH]; intros pool p; simpl.
  - by intros [= <- <-].
  - destruct (pool !! i) as [t|]; simpl; [|done].
    destruct (thread_step t p) as [[t' p1]|] eqn:Hstep; simpl; [|done].
    intros Hrest. etrans; [by eapply IH|by eapply thread_step_labels_le].
Qed.

Lemma run_schedule_labels_le_witness :
  run_schedule [0; 1; 1; 0]%nat race_pool race_slice
    = Some ([Returned false; Returned true],
            mkDataSlice [0; 0; 1] [5; 1] [-1; -1; -1] (S754_zero false))
  ∧ labels_le (mkDataSlice [0; 0; 1] [5; 1] [-1; -1; -1] (S754_zero false))
              race_slice.
Proof.
  assert (run_schedule [0; 1; 1; 0]%nat race_pool race_slice
          = Some ([Returned false; Returned true],
                  mkDataSlice [0; 0; 1] [5; 1] [-1; -1; -1]
                              (S754_zero false))) as Hrun by reflexivity.
  split; [exact Hrun|].
  exact (run_schedule_labels_le _ _ _ _ _ Hrun).
Defined.

(** [CondEdge] keeps the labels within [unsigned int]. *)
Theorem CondEdge_wf s_id d_id e_id p b p' :
  wf_slice p → CondEdge s_id d_id p e_id = Some (b, p') → wf_slice p'.
Proof.
  intros [Hl Hw] (label & weight & old & Hs & He & Hd & _ & ->)%CondEdge_inv.
  split; [|done]. simpl.
  apply Forall_insert; [done|].
  apply Ld_Some in Hd as [_ Hd].
  pose proof (Forall_lookup_1 _ _ _ _ Hl Hd) as Hold.
  pose proof (u32_range (weight + label)) as Hnew.
  unfold is_u32 in *. lia.
Qed.

Lemma CondEdge_wf_witness :
  wf_slice path_slice
  ∧ CondEdge 0 1 path_slice 0
    = Some (true, mkDataSlice [0; 2; UINT_MAX] [2; 3] [-1; -1; -1]
                              (S754_zero false))
  ∧ wf_slice (mkDataSlice [0; 2; UINT_MAX] [2; 3] [-1; -1; -1]
                          (S754_zero false)).
Proof.
  assert (wf_slice path_slice) as Hwf.
  { split; simpl; repeat constructor; unfold UINT_MAX; lia. }
  split; [exact Hwf|]. split; [reflexivity|].
  exact (CondEdge_wf 0 1 0 path_slice true _ Hwf eq_refl).
Defined.

End SSSP_properties.

(** ** Single precision and the priority score *)

Section Floats.

Import SSSP.

Lemma digits2_pos_bound (m : positive) (n : Z) :
  Zpos m < 2 ^ n → 0 ≤ n → Zpos (digits2_pos m) ≤ n.
Proof.
  revert n. induction m as [m IH|m IH|]; intros n Hm Hn; simpl.
  - assert (1 ≤ n)
      by (destruct (decide (n = 0)) as [->|]; [simpl in Hm|]; lia).
    specialize (IH (n - 1)).
    replace (2 ^ n) with (2 * 2 ^ (n - 1)) in Hm
      by (rewrite <- Z.pow_succ_r by lia; f_equal; lia).
    lia.
  - assert (1 ≤ n)
      by (destruct (decide (n = 0)) as [->|]; [simpl in Hm|]; lia).
    specialize (IH (n - 1)).
    replace (2 ^ n) with (2 * 2 ^ (n - 1)) in Hm
      by (rewrite <- Z.pow_succ_r by lia; f_equal; lia).
    lia.
  - destruct (decide (n = 0)) as [->|]; [simpl in Hm|]; lia.
Qed.

Lemma iter_xO_digits (m k : positive) :
  digits2_pos (Pos.iter xO m k) = (digits2_pos m + k)%positive.
Proof.
  induction k as [|k IH] using Pos.peano_ind.
  - simpl. lia.
  - rewrite Pos.iter_succ. simpl. rewrite IH. lia.
Qed.

Lemma iter_xO_value (m k : positive) :
  Zpos (Pos.iter xO m k) = Zpos m * 2 ^ Zpos k.
Proof.
  induction k as [|k IH] using Pos.peano_ind.
  - simpl. lia.
  - rewrite Pos.iter_succ, Pos2Z.inj_succ, Z.pow_succ_r by lia.
    rewrite Pos2Z.inj_xO, IH. lia.
Qed.

(** An integer below [2^24] is a binary32 number: the conversion only
    normalises the mantissa to 24 bits. *)
Lemma float_of_uint_small (m : positive) :
  Zpos m < 2 ^ 24 →
  ∃ mz ez, float_of_uint (Zpos m) = S754_finite false mz ez
           ∧ -24 < ez ≤ 0 ∧ Zpos mz = Zpos m * 2 ^ (- ez).
Proof.
  intros Hm. pose proof (digits2_pos_bound m 24 Hm ltac:(lia)) as Hd.
  unfold float_of_uint, binary_normalize, binary_round.
  set (d := digits2_pos m) in *.
  assert (fexp prec32 emax32 (Zpos d + 0) = Zpos d - 24) as ->.
  { unfold fexp, emin, prec32, emax32. lia. }
  destruct (decide (Zpos d = 24)) as [E|E].
  - exists m, 0. unfold shl_align. rewrite E. simpl.
    unfold binary_round_aux, shr_fexp. simpl. fold d. rewrite E. simpl.
    fold d. rewrite E. simpl. split; [done|]. lia.
  - unfold shl_align.
    destruct (Zpos d - 24 - 0) as [|k|k] eqn:Ek; try lia.
    exists (Pos.iter xO m k), (Zpos d - 24).
    assert (Zpos (digits2_pos (Pos.iter xO m k)) = 24) as Hdig.
    { rewrite iter_xO_digits. fold d. lia. }
    assert (fexp prec32 emax32 (24 + (Zpos d - 24)) - (Zpos d - 24) = 0)
      as Hexp.
    { unfold fexp, emin, prec32, emax32. lia. }
    split; [|split; [lia|]].
    + unfold binary_round_aux, shr_fexp. simpl Zdigits2.
      rewrite Hdig, Hexp. simpl. rewrite Hdig, Hexp. simpl.
      unfold emax32, prec32.
      destruct (Z.leb_spec (Zpos d - 24) (128 - 24)); [done|lia].
    + rewrite iter_xO_value. f_equal. f_equal. lia.
Qed.

Lemma uint_float_roundtrip (n : Z) :
  0 ≤ n ≤ 2 ^ 24 → uint_of_float (float_of_uint n) = Some n.
Proof.
  intros Hn. destruct (decide (n = 2 ^ 24)) as [->|]; [reflexivity|].
  destruct n as [|m|m]; [reflexivity| |lia].
  destruct (float_of_uint_small m) as (mz & ez & -> & Hez & Hmz); [lia|].
  unfold uint_of_float, float_trunc. simpl.
  assert ((if decide (0 ≤ ez) then Z.shiftl (Zpos mz) ez
           else Z.shiftr (Zpos mz) (- ez)) = Zpos m) as ->.
  { case_decide.
    - assert (ez = 0) as -> by lia. simpl in Hmz. rewrite Z.shiftl_0_r. lia.
    - rewrite Z.shiftr_div_pow2 by lia. rewrite Hmz.
      apply Z.div_mul. apply Z.pow_nonzero; lia. }
  simpl. rewrite decide_True; [done|]. unfold UINT_MAX. lia.
Qed.

(** C8 at a label above [2^24].  With delta [0] and [labels[v] = 2^24 + 1]
    the score is [2^24]: the label went through [float] and lost its last
    bit. *)
Theorem ComputePriorityScore_rounds_large_label :
  Ld (d_labels far_slice) 0 = Some 16777217
  ∧ float_is_zero (d_delta far_slice) = true
  ∧ ComputePriorityScore 0 far_slice = Some 16777216.
Proof. repeat split. Qed.

(** With delta [0] (of either sign) the score of a vertex whose label is at
    most [2^24] is the label itself. *)
Theorem ComputePriorityScore_zero_delta_exact node_id p label :
  Ld (d_labels p) node_id = Some label →
  0 ≤ label ≤ 2 ^ 24 →
  float_is_zero (d_delta p) = true →
  ComputePriorityScore node_id p = Some label.
Proof.
  intros Hl Hr Hz. unfold ComputePriorityScore. rewrite Hl. simpl.
  rewrite Hz. by apply uint_float_roundtrip.
Qed.

Lemma ComputePriorityScore_zero_delta_exact_witness :
  Ld (d_labels path_slice) 0 = Some 0
  ∧ 0 ≤ 0 ≤ 2 ^ 24
  ∧ float_is_zero (d_delta path_slice) = true
  ∧ ComputePriorityScore 0 path_slice = Some 0.
Proof.
  assert (0 ≤ 0 ≤ 2 ^ 24) as H by lia.
  split; [reflexivity|]. split; [exact H|]. split; [reflexivity|].
  exact (ComputePriorityScore_zero_delta_exact 0 path_slice 0
           eq_refl H eq_refl).
Defined.

(** With a delta that is not zero the score is the single-precision quotient
    cut to an integer: [7 / 2.0f] scores 3, [10 / 2.0f] scores 5, and a label
    over a negative delta has no score. *)
Theorem ComputePriorityScore_quotient_examples :
  ComputePriorityScore 0 (mkDataSlice [7] [] [] (float_of_uint 2)) = Some 3
  ∧ ComputePriorityScore 0 (mkDataSlice [10] [] [] (float_of_uint 2))
    = Some 5
  ∧ ComputePriorityScore 0
      (mkDataSlice [10] [] [] (SFopp (float_of_uint 2))) = None.
Proof. repeat split. Qed.

End Floats.

(** ** The connected-components driver *)

Section CC_properties.

Import CC.

Context {engine : Engine}.

Lemma GRError_eval error message line h :
  GRError error message line h =
    (error, mkHost (gout h) (mem h) (stdout h)
                   (stderr h ++ reports_of error message line) (calls h)).
Proof.
  destruct h as [g m o er c]. unfold GRError, reports_of.
  cbn [gout mem stdout stderr calls].
  case_decide; [by rewrite (right_id_L [] (++))|done].
Qed.

(** The whole effect of [run_cc] on the host. *)
Lemma run_cc_eval csr_graph max_grid_size num_gpus h :
  let a := fresh (dom (mem h)) in
  let mem1 :=
    <[a := replicate (Z.to_nat (Csr.nodes csr_graph)) 0]> (mem h) in
  run_cc csr_graph max_grid_size num_gpus h =
    (tt,
     mkHost
       (with_node_values (Some a) (gout h))
       (<[a := (extract_result csr_graph max_grid_size num_gpus mem1).2]>
          mem1)
       (stdout h ++ ["GPU Connected Component finished in %lf msec."])
       (stderr h
          ++ reports_of (init_result csr_graph num_gpus mem1).1
               "CC Problem Initialization Failed" 154
          ++ reports_of (reset_result csr_graph num_gpus mem1).1
               "CC Problem Data Reset Failed" 159
          ++ reports_of (enact_result csr_graph max_grid_size num_gpus mem1).1
               "CC Problem Enact Failed" 167
          ++ reports_of
               (extract_result csr_graph max_grid_size num_gpus mem1).1
               "CC Problem Data Extraction Failed" 173)
       (calls h ++ [CalledInit false csr_graph num_gpus; CalledReset;
                    CalledEnact max_grid_size; CalledExtract a;
                    CalledComputeCCHistogram])).
Proof.
  intros a mem1.
  unfold extract_result, enact_result, reset_result, init_result.
  unfold run_cc, bind, malloc, record_call, write_block, set_node_values,
    printf, modify.
  cbn [gout mem stdout stderr calls fst snd].
  fold a. fold mem1.
  destruct (Init false csr_graph mem1 num_gpus new_Problem) as [e1 pr1].
  rewrite GRError_eval. cbn [gout mem stdout stderr calls fst snd].
  destruct (Reset GetFrontierType pr1) as [e2 pr2].
  rewrite GRError_eval. cbn [gout mem stdout stderr calls fst snd].
  destruct (Enact pr2 max_grid_size) as [e3 pr3].
  rewrite GRError_eval. cbn [gout mem stdout stderr calls fst snd].
  destruct (Extract pr3 (Csr.nodes csr_graph)) as [e4 ids].
  rewrite GRError_eval. cbn [gout mem stdout stderr calls fst snd].
  by rewrite <- !(assoc_L (++)).
Qed.

Lemma dispatch_cc_int_eval ggraph_in cc_config h :
  dispatch_cc ggraph_in cc_config int_types h
  = run_cc (csr_of ggraph_in) 0 1 h.
Proof.
  unfold dispatch_cc, int_types, csr_of, bind, ret.
  cbn [VTXID_TYPE SIZET_TYPE VALUE_TYPE].
  by destruct (run_cc _ 0 1 h) as [[] h'].
Qed.

Lemma dispatch_cc_unsupported_eval ggraph_in cc_config data_type h :
  VALUE_TYPE data_type ≠ VALUE_INT →
  dispatch_cc ggraph_in cc_config data_type h =
    (tt, mkHost (gout h) (mem h)
                (stdout h ++ ["Not Yet Support This DataType Combination."])
                (stderr h) (calls h)).
Proof. by destruct data_type as [[] [] []]. Qed.

(** C3, as the driver has it.  For the value types without an
    implementation ([VALUE_UINT], [VALUE_FLOAT]) the dispatch prints
    "Not Yet Support This DataType Combination." on the standard output and
    does nothing else: the engine is not called, the output graph, the host
    memory and the error stream are as before, and the caller is handed
    nothing (the function is [void]). *)
Theorem dispatch_cc_unsupported_prints ggraph_in cc_config vtxid sizet h :
  let told :=
    (tt, mkHost (gout h) (mem h)
                (stdout h ++ ["Not Yet Support This DataType Combination."])
                (stderr h) (calls h)) in
  dispatch_cc ggraph_in cc_config (mkDataType vtxid sizet VALUE_UINT) h = told
  ∧ dispatch_cc ggraph_in cc_config (mkDataType vtxid sizet VALUE_FLOAT) h
    = told.
Proof. split; by apply dispatch_cc_unsupported_eval. Qed.

(** C4, as the driver has it.  For the implemented type combination the
    engine is run with [max_grid_size = 0] (left to the enactor) and one GPU,
    whatever the caller's configuration holds; for every type combination the
    outcome of the entry point does not depend on the configuration. *)
Theorem gunrock_cc_func_fixed_options ggraph_in cc_config h :
  calls (gunrock_cc_func ggraph_in cc_config int_types h).2
  = calls h ++ [CalledInit false (csr_of ggraph_in) 1; CalledReset;
                CalledEnact 0; CalledExtract (fresh (dom (mem h)));
                CalledComputeCCHistogram]
  ∧ ∀ cc_config' data_type,
      gunrock_cc_func ggraph_in cc_config' data_type h
      = gunrock_cc_func ggraph_in cc_config data_type h.
Proof.
  split; [|done].
  unfold gunrock_cc_func. by rewrite dispatch_cc_int_eval, run_cc_eval.
Qed.

(** C5, as the driver has it.  The entry point returns nothing.  On the
    implemented type combination it always runs to its end: the four engine
    operations are called in order whether or not an earlier one failed, each
    failure is reported on the error stream with its message and the source
    line of the stage, the buffer of component ids becomes the output's
    [node_values], and the closing line is printed. *)
Theorem gunrock_cc_func_reports_and_continues ggraph_in cc_config h :
  let csr_graph := csr_of ggraph_in in
  let a := fresh (dom (mem h)) in
  let mem1 := <[a := replicate (Z.to_nat (num_nodes ggraph_in)) 0]> (mem h) in
  gunrock_cc_func ggraph_in cc_config int_types h =
    (tt,
     mkHost
       (with_node_values (Some a) (gout h))
       (<[a := (extract_result csr_graph 0 1 mem1).2]> mem1)
       (stdout h ++ ["GPU Connected Component finished in %lf msec."])
       (stderr h
          ++ reports_of (init_result csr_graph 1 mem1).1
               "CC Problem Initialization Failed" 154
          ++ reports_of (reset_result csr_graph 1 mem1).1
               "CC Problem Data Reset Failed" 159
          ++ reports_of (enact_result csr_graph 0 1 mem1).1
               "CC Problem Enact Failed" 167
          ++ reports_of (extract_result csr_graph 0 1 mem1).1
               "CC Problem Data Extraction Failed" 173)
       (calls h ++ [CalledInit false csr_graph 1; CalledReset;
                    CalledEnact 0; CalledExtract a;
                    CalledComputeCCHistogram])).
Proof.
  intros csr_graph a mem1. unfold gunrock_cc_func.
  by rewrite dispatch_cc_int_eval, run_cc_eval.
Qed.

(** Every array the host holds before a call of the entry point is there
    unchanged afterwards, and only [node_values] of the output struct
    changes. *)
Lemma gunrock_cc_func_frame ggraph_in cc_config data_type h :
  let h' := (gunrock_cc_func ggraph_in cc_config data_type h).2 in
  (∀ addr array, mem h !! addr = Some array → mem h' !! addr = Some array)
  ∧ num_nodes (gout h') = num_nodes (gout h)
  ∧ num_edges (gout h') = num_edges (gout h)
  ∧ row_offsets (gout h') = row_offsets (gout h)
  ∧ col_indices (gout h') = col_indices (gout h).
Proof.
  destruct data_type as [[] [] []]; unfold gunrock_cc_func.
  - fold int_types. rewrite dispatch_cc_int_eval, run_cc_eval.
    cbn [snd gout mem]. split; [|done].
    intros addr array Hin.
    assert (addr ≠ fresh (dom (mem h))) as Hne.
    { intros ->. apply (is_fresh (dom (mem h))). apply elem_of_dom. eauto. }
    by rewrite !lookup_insert_ne.
  - by rewrite dispatch_cc_unsupported_eval.
  - by rewrite dispatch_cc_unsupported_eval.
Qed.

(** An [Enact] on record after a run was on record before it, or is the
    one the run made, with [max_grid_size = 0]. *)
Lemma gunrock_cc_func_enact_calls ggraph_in cc_config h grid :
  CalledEnact grid ∈ calls (gunrock_cc_func ggraph_in cc_config int_types h).2 →
  CalledEnact grid ∈ calls h ∨ grid = 0.
Proof.
  unfold gunrock_cc_func. rewrite dispatch_cc_int_eval, run_cc_eval.
  cbn [snd calls]. rewrite elem_of_app. intros [Hold|Hnew]; [by left|right].
  repeat (apply elem_of_cons in Hnew as [Hnew|Hnew];
          [by (discriminate Hnew || injection Hnew)|]).
  by apply elem_of_nil in Hnew.
Qed.

End CC_properties.

Section CC_counterexamples.

Import CC.

(** C3 as stated fails.  The value [dispatch_cc] hands back for the
    unsupported [VALUE_UINT] is the value it hands back after a successful
    run, so no reading of it is a declared "unsupported type combination"
    result; and what the caller can inspect afterwards (the output graph, the
    host memory, the error stream) is as it was before the call. *)
Lemma dispatch_cc_unsupported_returns_nothing :
  (¬ ∃ result_of : unit → Result,
       result_of (dispatch_cc (engine := engine_ok)
                    path3 config0 uint_values host0).1
         = UnsupportedTypeCombination
       ∧ result_of (dispatch_cc (engine := engine_ok)
                      path3 config0 int_types host0).1
         = Success)
  ∧ gout (dispatch_cc (engine := engine_ok)
            path3 config0 uint_values host0).2 = gout host0
  ∧ mem (dispatch_cc (engine := engine_ok)
           path3 config0 uint_values host0).2 = mem host0
  ∧ stderr (dispatch_cc (engine := engine_ok)
              path3 config0 uint_values host0).2 = stderr host0.
Proof.
  split; [|done].
  intros (result_of & Hbad & Hgood).
  destruct (dispatch_cc path3 config0 uint_values host0).1,
    (dispatch_cc path3 config0 int_types host0).1.
  congruence.
Qed.

(** C4 as stated fails.  With [max_grid_size = 8] and [num_partitions = 2]
    in the configuration, the engine is still run with [0] and [1]. *)
Lemma gunrock_cc_func_drops_config :
  ¬ config_applied config8
      (gunrock_cc_func (engine := engine_ok)
         path3 config8 int_types host0).2.
Proof.
  intros [Henact _].
  apply gunrock_cc_func_enact_calls in Henact as [Henact|Henact].
  - by apply elem_of_nil in Henact.
  - discriminate Henact.
Qed.

(** C5 as stated fails.  The entry point hands back the same value whether
    the run succeeds, [Init] fails or [Enact] fails: no reading of it tells
    the three apart. *)
Lemma gunrock_cc_func_returns_no_result :
  ¬ ∃ result_of : unit → Result,
      result_of (gunrock_cc_func (engine := engine_ok)
                   path3 config0 int_types host0).1 = Success
      ∧ (∃ message stage,
           result_of (gunrock_cc_func (engine := engine_init_fails)
                        path3 config0 int_types host0).1
           = InitializationFailure message stage)
      ∧ (∃ message stage,
           result_of (gunrock_cc_func (engine := engine_enact_fails)
                        path3 config0 int_types host0).1
           = EnactFailure message stage).
Proof.
  intros (result_of & Hok & (message & stage & Hinit) & _).
  destruct (gunrock_cc_func (engine := engine_ok)
              path3 config0 int_types host0).1,
    (gunrock_cc_func (engine := engine_init_fails)
       path3 config0 int_types host0).1.
  congruence.
Qed.

End CC_counterexamples.

(** ** The Graph Store *)

Section Graph_store.

Import SSSP CC.

(** C9.  The Graph Store is never written.  A functor operation
    ([CondEdge], [ApplyEdge], [CondFilter], [ApplyFilter],
    [ComputePriorityScore]) leaves the row offsets, the column indices and
    the edge weights of the device as they were.  A call of the
    connected-components entry point, with any engine, any configuration and
    any data type, leaves every array the host held before the call as it
    was, the [row_offsets] and [col_indices] arrays of the input graph among
    them, and changes no topology field of the output struct. *)
Theorem graph_store_immutable :
  (∀ MARK_PATHS c dev r dev',
     exec MARK_PATHS c dev = Some (r, dev') →
     graph_store dev' = graph_store dev)
  ∧ (∀ (engine : Engine) ggraph_in cc_config data_type h,
       let h' := (gunrock_cc_func ggraph_in cc_config data_type h).2 in
       (∀ addr array,
          mem h !! addr = Some array → mem h' !! addr = Some array)
       ∧ num_nodes (gout h') = num_nodes (gout h)
       ∧ num_edges (gout h') = num_edges (gout h)
       ∧ row_offsets (gout h') = row_offsets (gout h)
       ∧ col_indices (gout h') = col_indices (gout h)).
Proof.
  split.
  - apply exec_graph_store.
  - intros engine. apply gunrock_cc_func_frame.
Qed.

Lemma graph_store_immutable_witness :
  exec true (CallCondEdge 0 1 0) (mkDevice [0; 1; 2; 2] [1; 2] path_slice)
    = Some (RBool true,
            mkDevice [0; 1; 2; 2] [1; 2]
              (mkDataSlice [0; 2; UINT_MAX] [2; 3] [-1; -1; -1]
                           (S754_zero false)))
  ∧ graph_store
      (mkDevice [0; 1; 2; 2] [1; 2]
         (mkDataSlice [0; 2; UINT_MAX] [2; 3] [-1; -1; -1]
                      (S754_zero false)))
    = graph_store (mkDevice [0; 1; 2; 2] [1; 2] path_slice)
  ∧ mem host0 !! 0%nat = Some [0; 1; 3; 4]
  ∧ mem (gunrock_cc_func (engine := engine_ok)
           path3 config0 int_types host0).2 !! 0%nat = Some [0; 1; 3; 4].
Proof.
  assert (exec true (CallCondEdge 0 1 0)
            (mkDevice [0; 1; 2; 2] [1; 2] path_slice)
          = Some (RBool true,
                  mkDevice [0; 1; 2; 2] [1; 2]
                    (mkDataSlice [0; 2; UINT_MAX] [2; 3] [-1; -1; -1]
                                 (S754_zero false)))) as Hexec
    by reflexivity.
  assert (mem host0 !! 0%nat = Some [0; 1; 3; 4]) as Hmem by reflexivity.
  split; [exact Hexec|].
  split; [exact (proj1 graph_store_immutable _ _ _ _ _ Hexec)|].
  split; [exact Hmem|].
  exact (proj1 (proj2 graph_store_immutable engine_ok path3 config0
                      int_types host0) 0%nat [0; 1; 3; 4] Hmem).
Defined.

End Graph_store.

(** ** More on the edge functor *)

Section Edge_functor.

Import SSSP.

Implicit Types (problem p : DataSlice) (s_id d_id e_id node : Z).

Lemma set_labels_same p : set_labels (d_labels p) p = p.
Proof. by destruct p. Qed.

Lemma Ld_insert_id (a : list Z) i x :
  Ld a i = Some x → <[Z.to_nat i := x]> a = a.
Proof. intros [_ H]%Ld_Some. by apply list_insert_id. Qed.

Lemma CondEdge_loser_unchanged s_id d_id e_id p p' :
  CondEdge s_id d_id p e_id = Some (false, p') → p' = p.
Proof.
  intros (label & weight & old & Hs & He & Hd & Hb & ->)%CondEdge_inv.
  symmetry in Hb. apply bool_decide_eq_false in Hb.
  rewrite Z.min_l by lia.
  rewrite (Ld_insert_id _ _ _ Hd). apply set_labels_same.
Qed.

(** A call that returns [false] has changed nothing; a call that returns
    [true] has changed [labels[d]]. *)
Theorem CondEdge_false_iff_unchanged s_id d_id e_id p b p' :
  CondEdge s_id d_id p e_id = Some (b, p') → (b = false ↔ p' = p).
Proof.
  intros Hcall. split; [intros ->; by eapply CondEdge_loser_unchanged|].
  revert Hcall.
  intros (label & weight & old & Hs & He & Hd & -> & ->)%CondEdge_inv.
  rewrite bool_decide_eq_false.
  - intros Heq Hlt.
    assert (Ld (d_labels (set_labels
              (<[Z.to_nat d_id := Z.min old (u32 (weight + label))]>
                 (d_labels p)) p)) d_id = Some old) as H
      by (by rewrite Heq).
    simpl in H. rewrite (Ld_insert_eq _ _ _ _ Hd) in H. simplify_eq. lia.
Qed.

(** The same edge relaxed again at once loses and changes nothing. *)
Theorem CondEdge_again_loses s_id d_id e_id p b p' :
  s_id ≠ d_id →
  CondEdge s_id d_id p e_id = Some (b, p') →
  CondEdge s_id d_id p' e_id = Some (false, p').
Proof.
  intros Hne (label & weight & old & Hs & He & Hd & -> & ->)%CondEdge_inv.
  pose proof (Ld_in_range _ _ _ Hd) as Hr.
  set (c := u32 (weight + label)).
  set (p1 := set_labels (<[Z.to_nat d_id:=Z.min old c]> (d_labels p)) p).
  assert (Ld (d_labels p1) s_id = Some label) as Hs1.
  { simpl. rewrite Ld_insert_ne; [done|done|lia]. }
  assert (Ld (d_labels p1) d_id = Some (Z.min old c)) as Hd1.
  { simpl. by eapply Ld_insert_eq. }
  rewrite (CondEdge_eval _ _ _ _ _ _ _ Hs1 He Hd1). fold c.
  f_equal. f_equal.
  - apply bool_decide_eq_false. lia.
  - rewrite Z.min_l by lia. rewrite (Ld_insert_id _ _ _ Hd1).
    apply set_labels_same.
Qed.

(** Two relaxations whose sources are not the other's destination give the
    same labels in either order. *)
Theorem CondEdge_commute s1 d1 e1 s2 d2 e2 p b1 p1 b2 p12 :
  s1 ≠ d2 → s2 ≠ d1 →
  CondEdge s1 d1 p e1 = Some (b1, p1) →
  CondEdge s2 d2 p1 e2 = Some (b2, p12) →
  ∃ b2' p2 b1',
    CondEdge s2 d2 p e2 = Some (b2', p2)
    ∧ CondEdge s1 d1 p2 e1 = Some (b1', p12)
    ∧ (d1 ≠ d2 → b1' = b1 ∧ b2' = b2).
Proof.
  intros Hn1 Hn2
    (l1 & w1 & o1 & Hs1 & He1 & Hd1 & -> & ->)%CondEdge_inv
    (l2 & w2 & o2 & Hs2 & He2 & Hd2 & -> & ->)%CondEdge_inv.
  simpl in *.
  pose proof (Ld_in_range _ _ _ Hd1) as Hr1.
  rewrite Ld_insert_ne in Hs2 by (done || lia).
  set (c1 := u32 (w1 + l1)) in *. set (c2 := u32 (w2 + l2)) in *.
  destruct (decide (d1 = d2)) as [<-|Hd].
  - rewrite (Ld_insert_eq _ _ _ _ Hd1) in Hd2. simplify_eq.
    eexists _, _, _. split; [by apply CondEdge_eval|]. fold c2.
    split; [|done].
    erewrite CondEdge_eval; [| |done|].
    2:{ simpl. rewrite Ld_insert_ne; [done|done|lia]. }
    2:{ simpl. by eapply Ld_insert_eq. }
    fold c1. do 2 f_equal.
    unfold set_labels. simpl. rewrite !list_insert_insert_eq.
    do 2 f_equal. lia.
  - rewrite Ld_insert_ne in Hd2 by (done || lia).
    pose proof (Ld_in_range _ _ _ Hd2) as Hr2.
    eexists _, _, _. split; [by apply CondEdge_eval|]. fold c2.
    erewrite CondEdge_eval; [| |done|].
    2:{ simpl. rewrite Ld_insert_ne; [done|done|lia]. }
    2:{ simpl. rewrite Ld_insert_ne; [done|done|lia]. }
    fold c1. split; [|done]. do 2 f_equal.
    unfold set_labels. simpl. f_equal.
    apply list_insert_insert_ne. lia.
Qed.
(** A later mark of the same vertex replaces the earlier one. *)
Theorem ApplyEdge_last_writer MARK_PATHS s1 s2 d_id p p1 :
  ApplyEdge MARK_PATHS s1 d_id p = Some p1 →
  ApplyEdge MARK_PATHS s2 d_id p1 = ApplyEdge MARK_PATHS s2 d_id p.
Proof.
  unfold ApplyEdge, St. destruct MARK_PATHS; [|by intros [= <-]].
  case_decide as Hr; simpl; [|done]. intros [= <-]. simpl.
  rewrite length_insert. rewrite !decide_True by done. simpl.
  unfold set_preds. simpl. by rewrite list_insert_insert_eq.
Qed.

(** A relaxation with path marking changes nothing, or lowers [labels[d]] to
    the candidate and names [s] the predecessor of [d]. *)
Theorem relax_marks_winner s_id d_id e_id p p' :
  relax true (s_id, d_id, e_id) p = Some p' →
  p' = p
  ∨ ∃ label weight old,
      Ld (d_labels p) s_id = Some label
      ∧ Ld (d_weights p) e_id = Some weight
      ∧ Ld (d_labels p) d_id = Some old
      ∧ u32 (weight + label) < old
      ∧ Ld (d_labels p') d_id = Some (u32 (weight + label))
      ∧ Ld (d_preds p') d_id = Some s_id.
Proof.
  unfold relax.
  destruct (CondEdge s_id d_id p e_id) as [[won p1]|] eqn:Hc; simpl; [|done].
  destruct won.
  - intros Ha. right.
    apply CondEdge_inv in Hc
      as (label & weight & old & Hs & He & Hd & Hb & ->).
    symmetry in Hb. apply bool_decide_eq_true in Hb.
    exists label, weight, old. repeat (split; [done|]).
    unfold ApplyEdge, St in Ha. case_decide as Hr; simpl in Ha; [|done].
    injection Ha as <-. cbn [d_labels d_preds set_labels set_preds] in *.
    split.
    + rewrite Z.min_r by lia. by eapply Ld_insert_eq.
    + apply Ld_Some. split; [lia|]. apply list_lookup_insert_eq. lia.
  - intros [= <-]. left. by eapply CondEdge_loser_unchanged.
Qed.

Lemma CondEdge_false_iff_unchanged_witness :
  CondEdge 0 1 settled_slice 0 = Some (false, settled_slice)
  ∧ (false = false ↔ settled_slice = settled_slice).
Proof.
  split; [reflexivity|].
  exact (CondEdge_false_iff_unchanged 0 1 0 settled_slice false
           settled_slice eq_refl).
Defined.

Lemma CondEdge_again_loses_witness :
  0 ≠ 1
  ∧ CondEdge 0 1 path_slice 0
    = Some (true, mkDataSlice [0; 2; UINT_MAX] [2; 3] [-1; -1; -1]
                              (S754_zero false))
  ∧ CondEdge 0 1
      (mkDataSlice [0; 2; UINT_MAX] [2; 3] [-1; -1; -1] (S754_zero false)) 0
    = Some (false, mkDataSlice [0; 2; UINT_MAX] [2; 3] [-1; -1; -1]
                               (S754_zero false)).
Proof.
  assert (0 ≠ 1) as H by lia.
  split; [exact H|]. split; [reflexivity|].
  exact (CondEdge_again_loses 0 1 0 path_slice true _ H eq_refl).
Defined.

Lemma CondEdge_commute_witness :
  0 ≠ 2 ∧ 1 ≠ 2
  ∧ CondEdge 0 2 race_slice 0
    = Some (true, mkDataSlice [0; 0; 5] [5; 1] [-1; -1; -1]
                              (S754_zero false))
  ∧ CondEdge 1 2
      (mkDataSlice [0; 0; 5] [5; 1] [-1; -1; -1] (S754_zero false)) 1
    = Some (true, mkDataSlice [0; 0; 1] [5; 1] [-1; -1; -1]
                              (S754_zero false))
  ∧ ∃ b2' p2 b1',
      CondEdge 1 2 race_slice 1 = Some (b2', p2)
      ∧ CondEdge 0 2 p2 0
        = Some (b1', mkDataSlice [0; 0; 1] [5; 1] [-1; -1; -1]
                                 (S754_zero false))
      ∧ (2 ≠ 2 → b1' = true ∧ b2' = true).
Proof.
  assert (0 ≠ 2) as H1 by lia. assert (1 ≠ 2) as H2 by lia.
  split; [exact H1|]. split; [exact H2|].
  split; [reflexivity|]. split; [reflexivity|].
  exact (CondEdge_commute 0 2 0 1 2 1 race_slice true _ true _
           H1 H2 eq_refl eq_refl).
Defined.

Lemma ApplyEdge_last_writer_witness :
  ApplyEdge true 0 1 path_slice
    = Some (mkDataSlice [0; UINT_MAX; UINT_MAX] [2; 3] [-1; 0; -1]
                        (S754_zero false))
  ∧ ApplyEdge true 2 1
      (mkDataSlice [0; UINT_MAX; UINT_MAX] [2; 3] [-1; 0; -1]
                   (S754_zero false))
    = ApplyEdge true 2 1 path_slice.
Proof.
  split; [reflexivity|].
  exact (ApplyEdge_last_writer true 0 2 1 path_slice _ eq_refl).
Defined.

Lemma relax_marks_winner_witness :
  relax true (0, 1, 0) path_slice
    = Some (mkDataSlice [0; 2; UINT_MAX] [2; 3] [-1; 0; -1]
                        (S754_zero false))
  ∧ (mkDataSlice [0; 2; UINT_MAX] [2; 3] [-1; 0; -1] (S754_zero false)
     = path_slice
     ∨ ∃ label weight old,
         Ld (d_labels path_slice) 0 = Some label
         ∧ Ld (d_weights path_slice) 0 = Some weight
         ∧ Ld (d_labels path_slice) 1 = Some old
         ∧ u32 (weight + label) < old
         ∧ Ld [0; 2; UINT_MAX] 1 = Some (u32 (weight + label))
         ∧ Ld [-1; 0; -1] 1 = Some 0).
Proof.
  split; [reflexivity|].
  exact (relax_marks_winner 0 1 0 path_slice _ eq_refl).
Defined.

End Edge_functor.

(** ** The race for a label *)

Section Race.

Import SSSP.

Implicit Types (p : DataSlice) (pool : list thread).

Lemma foldr_min_base (a c : Z) (l : list Z) :
  foldr Z.min (Z.min a c) l = Z.min c (foldr Z.min a l).
Proof. induction l as [|x l IH]; simpl; [|rewrite IH]; lia. Qed.

Lemma foldr_min_middle (a c : Z) (l1 l2 : list Z) :
  foldr Z.min a (l1 ++ c :: l2) = foldr Z.min (Z.min a c) (l1 ++ l2).
Proof.
  induction l1 as [|x l1 IH]; simpl.
  - by rewrite foldr_min_base.
  - by rewrite IH.
Qed.

Lemma pending_app d_id pool1 pool2 :
  pending d_id (pool1 ++ pool2) = pending d_id pool1 ++ pending d_id pool2.
Proof. apply omap_app. Qed.

(** One step of a thread that is past its loads keeps, for every vertex, the
    least of its label and the candidates still pending for it. *)
Lemma thread_step_lowest pool i t t' p p1 d_id old :
  pool !! i = Some t →
  match t with AtEntry _ _ _ => False | _ => True end →
  thread_step t p = Some (t', p1) →
  Ld (d_labels p) d_id = Some old →
  match t' with AtEntry _ _ _ => False | _ => True end
  ∧ ∃ old1, Ld (d_labels p1) d_id = Some old1
      ∧ foldr Z.min old1 (pending d_id (<[i := t']> pool))
        = foldr Z.min old (pending d_id pool).
Proof.
  intros Hi Ht Hstep Hold.
  destruct t as [s d e|d0 c|r]; [done| |].
  - simpl in Hstep.
    destruct (atomicMin (d_labels p) d0 c) as [[old0 labels']|] eqn:Ha;
      simpl in Hstep; [|done].
    injection Hstep as <- <-. split; [done|].
    apply atomicMin_inv in Ha as [Hd0 ->].
    pose proof (Ld_in_range _ _ _ Hd0) as Hr.
    set (t' := Returned (bool_decide (c < old0))).
    assert (pending d_id (<[i := t']> pool)
            = pending d_id (take i pool) ++ pending d_id (drop (S i) pool))
      as ->.
    { rewrite insert_take_drop by (by eapply lookup_lt_Some).
      by rewrite pending_app. }
    assert (pending d_id pool
            = pending d_id (take i pool)
              ++ (if decide (d0 = d_id) then [c] else [])
              ++ pending d_id (drop (S i) pool)) as ->.
    { rewrite <- (take_drop_middle _ _ _ Hi) at 1.
      rewrite pending_app. f_equal. unfold pending. simpl.
      by case_decide. }
    cbn [d_labels set_labels].
    destruct (decide (d0 = d_id)) as [->|Hne].
    + rewrite Hold in Hd0. injection Hd0 as <-.
      exists (Z.min old c). split; [by eapply Ld_insert_eq|].
      simpl. by rewrite foldr_min_middle.
    + exists old. split; [rewrite Ld_insert_ne; [done|done|lia]|done].
  - injection Hstep as <- <-. split; [done|].
    exists old. split; [done|]. by rewrite list_insert_id.
Qed.

(** Whatever the order in which the threads of an Advance step perform
    their [atomicMin]s, once all have returned every label is the least of
    its value before and the candidates that were pending for it. *)
Theorem lowest_candidate_wins schedule pool p pool' p' d_id old :
  past_loads pool →
  run_schedule schedule pool p = Some (pool', p') →
  all_returned pool' →
  Ld (d_labels p) d_id = Some old →
  Ld (d_labels p') d_id = Some (foldr Z.min old (pending d_id pool)).
Proof.
  revert pool p old.
  induction schedule as [|i rest IH]; intros pool p old Hpast; simpl.
  - intros [= <- <-] Hret Hold.
    assert (pending d_id pool = []) as ->; [|done].
    clear Hpast. induction Hret as [|t pool Ht _ IHp]; [done|].
    unfold pending in *. simpl. by destruct t.
  - destruct (pool !! i) as [t|] eqn:Hi; simpl; [|done].
    destruct (thread_step t p) as [[t' p1]|] eqn:Hstep; simpl; [|done].
    intros Hrun Hret Hold.
    assert (match t with AtEntry _ _ _ => False | _ => True end) as Ht.
    { unfold past_loads in Hpast.
      by apply (Forall_lookup_1 _ _ _ _ Hpast Hi). }
    destruct (thread_step_lowest _ _ _ _ _ _ _ _ Hi Ht Hstep Hold)
      as (Ht' & old1 & Hold1 & <-).
    apply (IH (<[i := t']> pool) p1 old1); [|done..].
    unfold past_loads. by apply Forall_insert.
Qed.

Lemma lowest_candidate_wins_witness :
  past_loads [Loaded 2 5; Loaded 2 1]
  ∧ run_schedule [0; 1]%nat [Loaded 2 5; Loaded 2 1] race_slice
    = Some ([Returned true; Returned true],
            mkDataSlice [0; 0; 1] [5; 1] [-1; -1; -1] (S754_zero false))
  ∧ all_returned [Returned true; Returned true]
  ∧ Ld (d_labels race_slice) 2 = Some UINT_MAX
  ∧ Ld [0; 0; 1] 2
    = Some (foldr Z.min UINT_MAX (pending 2 [Loaded 2 5; Loaded 2 1])).
Proof.
  assert (past_loads [Loaded 2 5; Loaded 2 1]) as H1
    by (repeat constructor).
  assert (run_schedule [0; 1]%nat [Loaded 2 5; Loaded 2 1] race_slice
          = Some ([Returned true; Returned true],
                  mkDataSlice [0; 0; 1] [5; 1] [-1; -1; -1]
                              (S754_zero false))) as H2 by reflexivity.
  assert (all_returned [Returned true; Returned true]) as H3
    by (repeat constructor).
  assert (Ld (d_labels race_slice) 2 = Some UINT_MAX) as H4 by reflexivity.
  repeat (split; [assumption|]).
  exact (lowest_candidate_wins _ _ _ _ _ 2 UINT_MAX H1 H2 H3 H4).
Defined.

(** The state of the race for the label of [d_id] among the threads that
    hold the lowest candidate [lowest]: none of them has run and the label
    is still above it, or exactly one has returned [true], the label is the
    candidate, and the others wait or have returned [false]. *)
Lemma race_step pool0 d_id lowest pool p i t t' p1 label :
  (∀ j d c, pool !! j = Some (Loaded d c) → pool0 !! j = Some (Loaded d c)) →
  (∀ j c, pool0 !! j = Some (Loaded d_id c) → lowest ≤ c) →
  past_loads pool →
  Ld (d_labels p) d_id = Some label →
  lowest ≤ label →
  (lowest < label
   ∧ (∃ j, pool0 !! j = Some (Loaded d_id lowest))
   ∧ (∀ j, pool0 !! j = Some (Loaded d_id lowest) →
           pool !! j = Some (Loaded d_id lowest))
   ∨ label = lowest
     ∧ ∃ w, pool0 !! w = Some (Loaded d_id lowest)
            ∧ pool !! w = Some (Returned true)
            ∧ ∀ j, j ≠ w → pool0 !! j = Some (Loaded d_id lowest) →
                   pool !! j = Some (Loaded d_id lowest)
                   ∨ pool !! j = Some (Returned false)) →
  pool !! i = Some t →
  thread_step t p = Some (t', p1) →
  let pool1 := <[i := t']> pool in
  (∀ j d c, pool1 !! j = Some (Loaded d c) → pool0 !! j = Some (Loaded d c))
  ∧ past_loads pool1
  ∧ ∃ label1,
      Ld (d_labels p1) d_id = Some label1
      ∧ lowest ≤ label1
      ∧ (lowest < label1
         ∧ (∃ j, pool0 !! j = Some (Loaded d_id lowest))
         ∧ (∀ j, pool0 !! j = Some (Loaded d_id lowest) →
                 pool1 !! j = Some (Loaded d_id lowest))
         ∨ label1 = lowest
           ∧ ∃ w, pool0 !! w = Some (Loaded d_id lowest)
                  ∧ pool1 !! w = Some (Returned true)
                  ∧ ∀ j, j ≠ w → pool0 !! j = Some (Loaded d_id lowest) →
                         pool1 !! j = Some (Loaded d_id lowest)
                         ∨ pool1 !! j = Some (Returned false)).
Proof.
  intros Hsame Hlow Hpast Hlabel Hle Hrace Hi Hstep pool1.
  pose proof (lookup_lt_Some _ _ _ Hi) as Hlen.
  assert (match t with AtEntry _ _ _ => False | _ => True end) as Ht
    by apply (Forall_lookup_1 _ _ _ _ Hpast Hi).
  destruct t as [s d e|d c|r]; [done| |].
  2:{ injection Hstep as <- <-. unfold pool1.
      rewrite list_insert_id by done. eauto 10. }
  simpl in Hstep.
  destruct (atomicMin (d_labels p) d c) as [[old labels']|] eqn:Ha;
    simpl in Hstep; [|done].
  injection Hstep as <- <-.
  apply atomicMin_inv in Ha as [Hd ->].
  pose proof (Ld_in_range _ _ _ Hd) as Hr.
  pose proof (Hsame _ _ _ Hi) as Hi0.
  assert (∀ j, j ≠ i → pool1 !! j = pool !! j) as Hother.
  { intros j Hj. unfold pool1. by rewrite list_lookup_insert_ne. }
  assert (pool1 !! i = Some (Returned (bool_decide (c < old)))) as Hnew.
  { unfold pool1. by rewrite list_lookup_insert_eq. }
  split; [|split].
  - intros j d' c' Hj. destruct (decide (j = i)) as [->|Hji].
    + rewrite Hnew in Hj. discriminate.
    + rewrite Hother in Hj by done. by apply Hsame.
  - unfold pool1, past_loads. by apply Forall_insert.
  - cbn [d_labels set_labels].
    destruct (decide (d = d_id)) as [->|Hdd].
    + rewrite Hlabel in Hd. injection Hd as <-.
      pose proof (Hlow _ _ Hi0) as Hc.
      exists (Z.min label c). split; [by eapply Ld_insert_eq|].
      split; [lia|].
      destruct (decide (c = lowest)) as [->|Hcl].
      * right. split; [destruct Hrace as [[? _]|[-> _]]; lia|].
        destruct Hrace as [(Hlt & _ & Hwait)|(-> & w & Hw0 & Hw & Hrest)].
        -- exists i. split; [done|]. split.
           ++ by rewrite Hnew, bool_decide_eq_true_2.
           ++ intros j Hj Hj0. left. rewrite Hother by done. by apply Hwait.
        -- assert (i ≠ w) as Hiw by (intros ->; congruence).
           exists w. split; [done|]. split; [by rewrite Hother|].
           intros j Hj Hj0. destruct (decide (j = i)) as [->|Hji].
           ++ right. rewrite Hnew. by rewrite bool_decide_eq_false_2 by lia.
           ++ rewrite Hother by done. by apply Hrest.
      * assert (∀ j, pool0 !! j = Some (Loaded d_id lowest) → j ≠ i) as Hni.
        { intros j Hj ->. congruence. }
        destruct Hrace as [(Hlt & Hex & Hwait)|(-> & w & Hw0 & Hw & Hrest)].
        -- left. split; [lia|]. split; [done|].
           intros j Hj0. rewrite Hother by (by apply Hni). by apply Hwait.
        -- right. split; [lia|]. exists w. split; [done|].
           split; [by rewrite Hother by (by apply Hni)|].
           intros j Hj Hj0. rewrite Hother by (by apply Hni).
           by apply Hrest.
    + exists label. split; [rewrite Ld_insert_ne; [done|done|lia]|].
      split; [done|].
      assert (∀ j, pool0 !! j = Some (Loaded d_id lowest) → j ≠ i) as Hni.
      { intros j Hj ->. congruence. }
      destruct Hrace as [(Hlt & Hex & Hwait)|(-> & w & Hw0 & Hw & Hrest)].
      * left. split; [done|]. split; [done|].
        intros j Hj0. rewrite Hother by (by apply Hni). by apply Hwait.
      * right. split; [done|]. exists w. split; [done|].
        split; [by rewrite Hother by (by apply Hni)|].
        intros j Hj Hj0. rewrite Hother by (by apply Hni). by apply Hrest.
Qed.

Lemma race_run pool0 d_id lowest schedule pool p pool' p' label :
  (∀ j d c, pool !! j = Some (Loaded d c) → pool0 !! j = Some (Loaded d c)) →
  (∀ j c, pool0 !! j = Some (Loaded d_id c) → lowest ≤ c) →
  past_loads pool →
  Ld (d_labels p) d_id = Some label →
  lowest ≤ label →
  (lowest < label
   ∧ (∃ j, pool0 !! j = Some (Loaded d_id lowest))
   ∧ (∀ j, pool0 !! j = Some (Loaded d_id lowest) →
           pool !! j = Some (Loaded d_id lowest))
   ∨ label = lowest
     ∧ ∃ w, pool0 !! w = Some (Loaded d_id lowest)
            ∧ pool !! w = Some (Returned true)
            ∧ ∀ j, j ≠ w → pool0 !! j = Some (Loaded d_id lowest) →
                   pool !! j = Some (Loaded d_id lowest)
                   ∨ pool !! j = Some (Returned false)) →
  run_schedule schedule pool p = Some (pool', p') →
  all_returned pool' →
  ∃ w, pool0 !! w = Some (Loaded d_id lowest)
       ∧ pool' !! w = Some (Returned true)
       ∧ ∀ j, pool0 !! j = Some (Loaded d_id lowest) →
              pool' !! j = Some (Returned true) → j = w.
Proof.
  revert pool p label.
  induction schedule as [|i rest IH];
    intros pool p label Hsame Hlow Hpast Hlabel Hle Hrace; simpl.
  - intros [= <- <-] Hret.
    assert (∀ j d c, pool !! j = Some (Loaded d c) → False) as Hnone.
    { intros j d c Hj. by apply (Forall_lookup_1 _ _ _ _ Hret Hj). }
    destruct Hrace as [(_ & [j Hj] & Hwait)|(_ & w & Hw0 & Hw & Hrest)].
    + destruct (Hnone _ _ _ (Hwait _ Hj)).
    + exists w. split; [done|]. split; [done|].
      intros j Hj0 Hj. destruct (decide (j = w)) as [|Hne]; [done|].
      destruct (Hrest _ Hne Hj0) as [Hl|Hf]; [|congruence].
      destruct (Hnone _ _ _ Hl).
  - destruct (pool !! i) as [t|] eqn:Hi; simpl; [|done].
    destruct (thread_step t p) as [[t' p1]|] eqn:Hstep; simpl; [|done].
    intros Hrun Hret.
    destruct (race_step pool0 d_id lowest pool p i t t' p1 label)
      as (Hsame1 & Hpast1 & label1 & Hlabel1 & Hle1 & Hrace1); try done.
    by eapply (IH _ _ label1).
Qed.

(** Of the threads that race for a label with the lowest candidate, exactly
    one returns [true], whatever the order of the [atomicMin]s, when that
    candidate is below the label. *)
Theorem one_winner_for_lowest schedule pool p pool' p' d_id lowest old :
  past_loads pool →
  run_schedule schedule pool p = Some (pool', p') →
  all_returned pool' →
  Ld (d_labels p) d_id = Some old →
  lowest < old →
  (∃ j, pool !! j = Some (Loaded d_id lowest)) →
  (∀ j c, pool !! j = Some (Loaded d_id c) → lowest ≤ c) →
  ∃ w, pool !! w = Some (Loaded d_id lowest)
       ∧ pool' !! w = Some (Returned true)
       ∧ ∀ j, pool !! j = Some (Loaded d_id lowest) →
              pool' !! j = Some (Returned true) → j = w.
Proof.
  intros Hpast Hrun Hret Hold Hlt Hex Hlow.
  eapply (race_run pool d_id lowest schedule pool p pool' p' old);
    try done; [lia|].
  left. by repeat split.
Qed.

Lemma one_winner_for_lowest_witness :
  past_loads [Loaded 2 5; Loaded 2 1; Loaded 2 1]
  ∧ run_schedule [2; 0; 1]%nat [Loaded 2 5; Loaded 2 1; Loaded 2 1]
      race_slice
    = Some ([Returned false; Returned false; Returned true],
            mkDataSlice [0; 0; 1] [5; 1] [-1; -1; -1] (S754_zero false))
  ∧ ∃ w, [Loaded 2 5; Loaded 2 1; Loaded 2 1] !! w = Some (Loaded 2 1)
         ∧ [Returned false; Returned false; Returned true] !! w
           = Some (Returned true)
         ∧ ∀ j, [Loaded 2 5; Loaded 2 1; Loaded 2 1] !! j
                = Some (Loaded 2 1) →
                [Returned false; Returned false; Returned true] !! j
                = Some (Returned true) → j = w.
Proof.
  assert (past_loads [Loaded 2 5; Loaded 2 1; Loaded 2 1]) as H1
    by (repeat constructor).
  assert (run_schedule [2; 0; 1]%nat [Loaded 2 5; Loaded 2 1; Loaded 2 1]
            race_slice
          = Some ([Returned false; Returned false; Returned true],
                  mkDataSlice [0; 0; 1] [5; 1] [-1; -1; -1]
                              (S754_zero false))) as H2 by reflexivity.
  assert (all_returned [Returned false; Returned false; Returned true])
    as H3 by (repeat constructor).
  assert (1 < UINT_MAX) as H4 by (unfold UINT_MAX; lia).
  assert (∃ j, [Loaded 2 5; Loaded 2 1; Loaded 2 1] !! j
               = Some (Loaded 2 1)) as H5 by (by exists 1%nat).
  assert (∀ j c, [Loaded 2 5; Loaded 2 1; Loaded 2 1] !! j
                 = Some (Loaded 2 c) → 1 ≤ c) as H6.
  { intros [|[|[|j]]] c [=]; lia. }
  split; [exact H1|]. split; [exact H2|].
  exact (one_winner_for_lowest _ _ _ _ _ 2 1 UINT_MAX H1 H2 H3 eq_refl
           H4 H5 H6).
Defined.

End Race.

(** ** Edge cases of the priority score *)

Section Score.

Import SSSP.

(** A NaN delta leaves no vertex with a score; under any other delta a
    vertex with label 0 (the source) scores 0. *)
Theorem ComputePriorityScore_nan_and_source node_id p label :
  Ld (d_labels p) node_id = Some label →
  (d_delta p = S754_nan → ComputePriorityScore node_id p = None)
  ∧ (d_delta p ≠ S754_nan → label = 0 →
     ComputePriorityScore node_id p = Some 0).
Proof.
  intros Hl. unfold ComputePriorityScore. rewrite Hl. simpl. split.
  - intros ->. unfold float_is_zero, float_div. simpl.
    by destruct (float_of_uint label).
  - intros Hnan ->. by destruct (d_delta p) as [[]|[]| |[] m e].
Qed.

Lemma ComputePriorityScore_nan_and_source_witness :
  Ld (d_labels path_slice) 0 = Some 0
  ∧ d_delta path_slice ≠ S754_nan
  ∧ ComputePriorityScore 0 path_slice = Some 0.
Proof.
  assert (d_delta path_slice ≠ S754_nan) as H by discriminate.
  split; [reflexivity|]. split; [exact H|].
  exact (proj2 (ComputePriorityScore_nan_and_source 0 path_slice 0 eq_refl)
               H eq_refl).
Defined.
End Score.

(** ** Displaying the components *)

Section Display_properties.

Import Display.

Implicit Types (c x y : CcList) (l : list CcList).

(** [CCCompare] is a strict weak ordering, as [std::stable_sort] requires of
    its comparison. *)
Theorem CCCompare_strict_weak_ordering x y z :
  CCCompare x x = false
  ∧ (CCCompare x y = true → CCCompare y z = true → CCCompare x z = true)
  ∧ (CCCompare x y = false → CCCompare y x = false →
     CCCompare y z = false → CCCompare z y = false →
     CCCompare x z = false ∧ CCCompare z x = false).
Proof.
  unfold CCCompare. rewrite !bool_decide_eq_true, !bool_decide_eq_false.
  lia.
Qed.

Lemma stable_insert_perm {A} (comp : A → A → bool) (a : A) (k : list A) :
  stable_insert comp a k ≡ₚ a :: k.
Proof.
  induction k as [|b k IH]; simpl; [done|].
  destruct (comp b a); [|done]. rewrite IH. apply Permutation_swap.
Qed.

Lemma stable_sort_perm {A} (comp : A → A → bool) (k : list A) :
  stable_sort comp k ≡ₚ k.
Proof.
  induction k as [|a k IH]; simpl; [done|].
  by rewrite stable_insert_perm, IH.
Qed.

Lemma stable_insert_sorted x l :
  StronglySorted by_size_desc l →
  StronglySorted by_size_desc (stable_insert CCCompare x l).
Proof.
  induction 1 as [|y l Hl IH Hy]; simpl; [by repeat constructor|].
  unfold CCCompare at 1. case_bool_decide as Hc.
  - constructor; [done|]. rewrite stable_insert_perm.
    constructor; [unfold by_size_desc; lia|done].
  - constructor; [by constructor|].
    constructor; [unfold by_size_desc; lia|].
    eapply Forall_impl; [done|]. unfold by_size_desc. intros; lia.
Qed.

Lemma stable_sort_sorted l :
  StronglySorted by_size_desc (stable_sort CCCompare l).
Proof.
  induction l as [|x l IH]; simpl; [constructor|].
  by apply stable_insert_sorted.
Qed.

Lemma stable_insert_stable (size : Z) x l :
  filter (λ c, histogram c = size) (stable_insert CCCompare x l)
  = filter (λ c, histogram c = size) (x :: l).
Proof.
  induction l as [|y l IH]; simpl; [done|].
  unfold CCCompare at 1. case_bool_decide as Hc; [|done].
  rewrite !filter_cons in *.
  destruct (decide (histogram y = size)), (decide (histogram x = size));
    try lia; by rewrite IH.
Qed.

Lemma stable_sort_stable (size : Z) l :
  filter (λ c, histogram c = size) (stable_sort CCCompare l)
  = filter (λ c, histogram c = size) l.
Proof.
  induction l as [|x l IH]; simpl; [done|].
  rewrite stable_insert_stable, !filter_cons. by rewrite IH.
Qed.

(** The first loop of the second branch reads the first [num_components]
    entries of [roots] and [histogram]. *)
Lemma load_components roots hist num_components :
  0 ≤ num_components →
  num_components ≤ Z.of_nat (length roots) →
  num_components ≤ Z.of_nat (length hist) →
  mapM (load_component roots hist) (seqZ 0 num_components)
  = Some (zip_with mkCcList (take (Z.to_nat num_components) roots)
                            (take (Z.to_nat num_components) hist)).
Proof.
  intros H0 Hr Hh. apply mapM_Some.
  apply Forall2_same_length_lookup_2.
  - rewrite length_seqZ, length_zip_with, !length_take. lia.
  - intros i j c [-> Hi]%lookup_seqZ
      (r & h & -> & [Hlr _]%lookup_take_Some & [Hlh _]%lookup_take_Some)
      %lookup_zip_with_Some.
    unfold load_component.
    assert (Ld roots (0 + Z.of_nat i) = Some r) as ->.
    { apply Ld_Some. split; [lia|]. by rewrite Z.add_0_l, Nat2Z.id. }
    assert (Ld hist (0 + Z.of_nat i) = Some h) as ->.
    { apply Ld_Some. split; [lia|]. by rewrite Z.add_0_l, Nat2Z.id. }
    done.
Qed.

(** On a graph of more than 40 vertices [DisplaySolution] prints the
    [min(num_components, 10)] largest components, largest first: the printed
    components followed by the ones left out are the components given, in
    an order where sizes never go up and components of one size keep the
    order they were given in. *)
Theorem DisplaySolution_top_components
    component_ids num_nodes num_components roots hist :
  40 < num_nodes →
  0 ≤ num_components →
  num_components ≤ Z.of_nat (length roots) →
  num_components ≤ Z.of_nat (length hist) →
  let given := zip_with mkCcList (take (Z.to_nat num_components) roots)
                                 (take (Z.to_nat num_components) hist) in
  ∃ top rest,
    DisplaySolution component_ids num_nodes num_components roots hist
    = Some ([Printf "Number of components: %d" [num_components];
             Printf "Top %d largest components:" [Z.min num_components 10]]
            ++ imap print_component top)
    ∧ length top = Z.to_nat (Z.min num_components 10)
    ∧ top ++ rest ≡ₚ given
    ∧ StronglySorted by_size_desc (top ++ rest)
    ∧ ∀ size, filter (λ c, histogram c = size) (top ++ rest)
              = filter (λ c, histogram c = size) given.
Proof.
  intros Hn H0 Hr Hh given.
  set (sorted := stable_sort CCCompare given).
  exists (take (Z.to_nat (Z.min num_components 10)) sorted),
         (drop (Z.to_nat (Z.min num_components 10)) sorted).
  rewrite take_drop. split; [|split; [|split; [|split]]].
  - unfold DisplaySolution. rewrite decide_False by lia.
    rewrite load_components by done. simpl. fold given. fold sorted.
    case_decide.
    + by rewrite Z.min_l by lia.
    + by rewrite Z.min_r by lia.
  - rewrite length_take. unfold sorted.
    rewrite (Permutation_length (stable_sort_perm CCCompare given)).
    unfold given. rewrite length_zip_with, !length_take. lia.
  - apply stable_sort_perm.
  - apply stable_sort_sorted.
  - intros size. apply stable_sort_stable.
Qed.

(** On a graph of at most 40 vertices [DisplaySolution] lists every vertex
    with its component id, in the order of the vertices, and reads neither
    [roots] nor [histogram]. *)
Theorem DisplaySolution_lists_vertices
    component_ids num_nodes num_components roots hist :
  num_nodes ≤ 40 →
  num_nodes ≤ Z.of_nat (length component_ids) →
  DisplaySolution component_ids num_nodes num_components roots hist
  = Some ([Printf "Number of components: %d" [num_components];
           Printf "[" []]
          ++ concat (zip_with
                       (λ i id, [PrintValue i; Printf ":" []; PrintValue id;
                                 Printf "," []; Printf " " []])
                       (seqZ 0 num_nodes) component_ids)
          ++ [Printf "]" []]).
Proof.
  intros Hn Hl. unfold DisplaySolution. rewrite decide_True by done.
  assert (mapM (print_vertex component_ids) (seqZ 0 num_nodes)
          = Some (zip_with
                    (λ i id, [PrintValue i; Printf ":" []; PrintValue id;
                              Printf "," []; Printf " " []])
                    (seqZ 0 num_nodes) component_ids)) as ->; [|done].
  apply mapM_Some. apply Forall2_same_length_lookup_2.
  - rewrite length_zip_with, length_seqZ. lia.
  - intros i v out [-> Hi]%lookup_seqZ
      (j & id & -> & [-> Hj]%lookup_seqZ & Hid)%lookup_zip_with_Some.
    unfold print_vertex.
    assert (Ld component_ids (0 + Z.of_nat i) = Some id) as ->; [|done].
    apply Ld_Some. split; [lia|]. by rewrite Z.add_0_l, Nat2Z.id.
Qed.

(** A vertex count beyond the array of component ids makes the listing read
    past its end. *)
Theorem DisplaySolution_reads_past_end
    component_ids num_nodes num_components roots hist :
  num_nodes ≤ 40 →
  Z.of_nat (length component_ids) < num_nodes →
  DisplaySolution component_ids num_nodes num_components roots hist = None.
Proof.
  intros Hn Hl. unfold DisplaySolution. rewrite decide_True by done.
  assert (mapM (print_vertex component_ids) (seqZ 0 num_nodes) = None)
    as ->; [|done].
  apply mapM_None. apply Exists_exists.
  exists (Z.of_nat (length component_ids)). split.
  - apply elem_of_seqZ. lia.
  - unfold print_vertex, Ld. rewrite decide_True by lia.
    rewrite Nat2Z.id. by rewrite lookup_ge_None_2.
Qed.

Lemma DisplaySolution_top_components_witness :
  40 < 41 ∧ 0 ≤ 3
  ∧ 3 ≤ Z.of_nat (length [0; 2; 5]) ∧ 3 ≤ Z.of_nat (length [2; 7; 7])
  ∧ ∃ top rest,
      DisplaySolution [] 41 3 [0; 2; 5] [2; 7; 7]
      = Some ([Printf "Number of components: %d" [3];
               Printf "Top %d largest components:" [Z.min 3 10]]
              ++ imap print_component top)
      ∧ length top = Z.to_nat (Z.min 3 10)
      ∧ top ++ rest
        ≡ₚ zip_with mkCcList (take (Z.to_nat 3) [0; 2; 5])
                             (take (Z.to_nat 3) [2; 7; 7])
      ∧ StronglySorted by_size_desc (top ++ rest)
      ∧ ∀ size, filter (λ c, histogram c = size) (top ++ rest)
                = filter (λ c, histogram c = size)
                    (zip_with mkCcList (take (Z.to_nat 3) [0; 2; 5])
                                       (take (Z.to_nat 3) [2; 7; 7])).
Proof.
  assert (40 < 41) as H1 by lia. assert (0 ≤ 3) as H2 by lia.
  assert (3 ≤ Z.of_nat (length [0; 2; 5])) as H3 by (simpl; lia).
  assert (3 ≤ Z.of_nat (length [2; 7; 7])) as H4 by (simpl; lia).
  repeat (split; [assumption|]).
  exact (DisplaySolution_top_components [] 41 3 [0; 2; 5] [2; 7; 7]
           H1 H2 H3 H4).
Defined.

Lemma DisplaySolution_lists_vertices_witness :
  3 ≤ 40 ∧ 3 ≤ Z.of_nat (length [0; 0; 2])
  ∧ DisplaySolution [0; 0; 2] 3 2 [] []
    = Some ([Printf "Number of components: %d" [2]; Printf "[" []]
            ++ concat (zip_with
                         (λ i id, [PrintValue i; Printf ":" [];
                                   PrintValue id; Printf "," [];
                                   Printf " " []])
                         (seqZ 0 3) [0; 0; 2])
            ++ [Printf "]" []]).
Proof.
  assert (3 ≤ 40) as H1 by lia.
  assert (3 ≤ Z.of_nat (length [0; 0; 2])) as H2 by (simpl; lia).
  repeat (split; [assumption|]).
  exact (DisplaySolution_lists_vertices [0; 0; 2] 3 2 [] [] H1 H2).
Defined.

Lemma DisplaySolution_reads_past_end_witness :
  3 ≤ 40 ∧ Z.of_nat (length [0; 0]) < 3
  ∧ DisplaySolution [0; 0] 3 2 [] [] = None.
Proof.
  assert (3 ≤ 40) as H1 by lia.
  assert (Z.of_nat (length [0; 0]) < 3) as H2 by (simpl; lia).
  repeat (split; [assumption|]).
  exact (DisplaySolution_reads_past_end [0; 0] 3 2 [] [] H1 H2).
Defined.

Lemma CCCompare_strict_weak_ordering_witness :
  CCCompare (mkCcList 0 7) (mkCcList 2 5) = true
  ∧ CCCompare (mkCcList 2 5) (mkCcList 4 2) = true
  ∧ CCCompare (mkCcList 0 7) (mkCcList 4 2) = true.
Proof.
  assert (CCCompare (mkCcList 0 7) (mkCcList 2 5) = true) as H1
    by reflexivity.
  assert (CCCompare (mkCcList 2 5) (mkCcList 4 2) = true) as H2
    by reflexivity.
  split; [exact H1|]. split; [exact H2|].
  exact (proj1 (proj2 (CCCompare_strict_weak_ordering
                         (mkCcList 0 7) (mkCcList 2 5) (mkCcList 4 2)))
               H1 H2).
Defined.

End Display_properties.

(** ** The buffer of component ids *)

Section Output_buffer.

Import CC.

Context {engine : Engine}.




End Output_buffer.
